(** * spotify_converter.py: the query normaliser and its three input adapters

    A shallow embedding of the string pipeline of [spotify_converter.py]
    ([clean_title], [clean_artist], [should_add_artist], the CSV, text and
    interactive adapters, [generate_youtube_searches] and
    [save_yt_dlp_batch_file]), followed by the properties of that pipeline.

    Python [str] values are modelled as lists of characters whose code points
    lie in 0..255 (the [ascii] type read as Latin-1).  On that range
    [str.lower], [str.isspace], the regular-expression class [\s] and
    case-insensitive literal matching are all character-wise, and they are
    written out below as Python defines them.  Beyond that range
    [str.lower] looks at the neighbours of a character, so no property below
    compares a search before lowercasing with the same search after it. *)

From Stdlib Require Import Ascii String List Bool Arith NArith Lia.
Import ListNotations.

Local Open Scope string_scope.
Local Open Scope list_scope.

(** ** Characters and strings *)

Definition str := list ascii.

Definition of_literal (s : string) : str := list_ascii_of_string s.
Coercion of_literal : string >-> str.

Definition code (c : ascii) : N := N_of_ascii c.

Definition newline : ascii := ascii_of_N 10.

(** [str.isspace] on one character: TAB..CR, FS..US, space, NEL and NBSP. *)
Definition isspace (c : ascii) : bool :=
  let n := code c in
  (((9 <=? n) && (n <=? 13)) || ((28 <=? n) && (n <=? 32))
   || (n =? 133) || (n =? 160))%N.

(** [str.lower] on one character: A..Z and the Latin-1 capitals other than
    the multiplication sign move up by 32. *)
Definition lower_char (c : ascii) : ascii :=
  let n := code c in
  if (((65 <=? n) && (n <=? 90))
      || ((192 <=? n) && (n <=? 222) && negb (n =? 215)))%N
  then ascii_of_N (n + 32) else c.

Definition lower (s : str) : str := map lower_char s.

Definition str_eqb (a b : str) : bool :=
  if list_eq_dec ascii_dec a b then true else false.

(** [s.startswith(p)] *)
Fixpoint startswith (p s : str) : bool :=
  match p, s with
  | [], _ => true
  | _ :: _, [] => false
  | a :: p', b :: s' => Ascii.eqb a b && startswith p' s'
  end.

(** [needle in hay] *)
Fixpoint contains (needle hay : str) : bool :=
  startswith needle hay
  || match hay with
     | [] => false
     | _ :: hay' => contains needle hay'
     end.

Fixpoint lstrip (s : str) : str :=
  match s with
  | [] => []
  | c :: s' => if isspace c then lstrip s' else s
  end.

Fixpoint rstrip (s : str) : str :=
  match s with
  | [] => []
  | c :: s' =>
      match rstrip s' with
      | [] => if isspace c then [] else [c]
      | r => c :: r
      end
  end.

(** [s.strip()] *)
Definition strip (s : str) : str := rstrip (lstrip s).

(** [s.split()]: the maximal runs of non-whitespace characters, in order.
    [word] holds the characters of the run being read, newest first. *)
Fixpoint split_words (word : str) (s : str) : list str :=
  match s with
  | [] => match word with [] => [] | _ => [rev word] end
  | c :: s' =>
      if isspace c
      then match word with
           | [] => split_words [] s'
           | _ => rev word :: split_words [] s'
           end
      else split_words (c :: word) s'
  end.

Definition split (s : str) : list str := split_words [] s.

(** [s.split(sep, 1)] for a non-empty separator: [[s]] when [sep] does not
    occur, otherwise the text before and after its first occurrence. *)
Fixpoint drop_prefix (p s : str) : option str :=
  match p, s with
  | [], _ => Some s
  | _ :: _, [] => None
  | a :: p', b :: s' => if Ascii.eqb a b then drop_prefix p' s' else None
  end.

Fixpoint partition_at (sep s : str) : option (str * str) :=
  match drop_prefix sep s with
  | Some rest => Some ([], rest)
  | None =>
      match s with
      | [] => None
      | c :: s' =>
          match partition_at sep s' with
          | Some (before, rest) => Some (c :: before, rest)
          | None => None
          end
      end
  end.

Definition split1 (sep s : str) : list str :=
  match partition_at sep s with
  | Some (before, rest) => [before; rest]
  | None => [s]
  end.

(** ** The fragment of [re] used by the cleaners

    Every pattern of the program is a sequence of single characters,
    single-character classes under a greedy or lazy star, and [$].  The
    matcher below is the backtracking search of [re] on that fragment: a
    lazy star tries the rest of the pattern before taking one more
    character, a greedy star takes one more character first. *)

Inductive node : Type :=
| Char (p : ascii -> bool)
| StarLazy (p : ascii -> bool)
| StarGreedy (p : ascii -> bool)
| EndAnchor.

Definition regex := list node.

(** [$] without [re.MULTILINE]: the end of the string, or just before a
    newline that ends the string. *)
Definition at_end (s : str) : bool :=
  match s with
  | [] => true
  | [c] => Ascii.eqb c newline
  | _ => false
  end.

(** [match_here r s] is the text left after the first (in backtracking
    order) match of [r] at the start of [s]. *)
Fixpoint match_here (r : regex) (s : str) {struct r} : option str :=
  match r with
  | [] => Some s
  | Char p :: r' =>
      match s with
      | c :: s' => if p c then match_here r' s' else None
      | [] => None
      end
  | StarLazy p :: r' =>
      (fix lazy (s : str) : option str :=
         match match_here r' s with
         | Some rest => Some rest
         | None =>
             match s with
             | c :: s' => if p c then lazy s' else None
             | [] => None
             end
         end) s
  | StarGreedy p :: r' =>
      (fix greedy (s : str) : option str :=
         match s with
         | c :: s' =>
             if p c
             then match greedy s' with
                  | Some rest => Some rest
                  | None => match_here r' s
                  end
             else match_here r' s
         | [] => match_here r' []
         end) s
  | EndAnchor :: r' => if at_end s then match_here r' s else None
  end.

(** [re.sub(r, repl, s)]: scanning left to right, every match found at the
    current position is replaced by [repl] and the scan resumes after it.
    The loop is written over the matcher [m], which gives the text left
    after a match at the start of its argument; [skip] counts the characters
    of the current match still to be passed over.  No pattern of the
    program matches the empty string ([patterns_consume] below), so the
    rules of [re.sub] for empty matches are not modelled: an empty match is
    passed over. *)
Fixpoint sub_from (m : str -> option str) (repl : str) (skip : nat)
    (s : str) : str :=
  match s with
  | [] => []
  | c :: s' =>
      match skip with
      | S k => sub_from m repl k s'
      | O =>
          match m s with
          | Some rest =>
              match length s - length rest with
              | S k => repl ++ sub_from m repl k s'
              | O => c :: sub_from m repl 0 s'
              end
          | None => c :: sub_from m repl 0 s'
          end
      end
  end.

Definition re_sub (r : regex) (repl : str) (s : str) : str :=
  sub_from (match_here r) repl 0 s.

(** Pattern atoms. *)
Definition lit (c : ascii) : node := Char (Ascii.eqb c).
Arguments lit c%_char.
Definition lit_i (c : ascii) : node :=
  Char (fun x => Ascii.eqb (lower_char x) (lower_char c)).
Definition dot (c : ascii) : bool := negb (Ascii.eqb c newline).
Definition one_of (cs : str) (c : ascii) : bool :=
  existsb (Ascii.eqb c) cs.

Definition lits_i (s : str) : regex := map lit_i s.

(** ** The cleaners *)

(** [\(feat\..*?\)] and its two siblings, under [re.IGNORECASE]. *)
Definition pat_tagged (tag : str) : regex :=
  lit "(" :: lits_i tag ++ [StarLazy dot; lit ")"].

(** [\(.*?remix.*?\)] and its two siblings, under [re.IGNORECASE]. *)
Definition pat_keyword (kw : str) : regex :=
  lit "(" :: StarLazy dot :: lits_i kw ++ [StarLazy dot; lit ")"].

(** [\[.*?\]] *)
Definition pat_bracket : regex := [lit "["; StarLazy dot; lit "]"].

(** [\s+] *)
Definition pat_spaces : regex := [Char isspace; StarGreedy isspace].

Definition clean_title (title : str) : str :=
  let title := re_sub (pat_tagged "feat.") "" title in
  let title := re_sub (pat_tagged "ft.") "" title in
  let title := re_sub (pat_tagged "with") "" title in
  let title := re_sub (pat_keyword "remix") "" title in
  let title := re_sub (pat_keyword "version") "" title in
  let title := re_sub (pat_keyword "edit") "" title in
  let title := re_sub pat_bracket "" title in
  let title := strip (re_sub pat_spaces " " title) in
  title.

(** [\s*[,&]\s*.*$], [\s*feat\..*$] and [\s*ft\..*$]. *)
Definition pat_separator : regex :=
  [StarGreedy isspace; Char (one_of ",&"); StarGreedy isspace;
   StarGreedy dot; EndAnchor].

Definition pat_featuring (tag : str) : regex :=
  StarGreedy isspace :: lits_i tag ++ [StarGreedy dot; EndAnchor].

Definition clean_artist (artist : str) : str :=
  let artist := re_sub pat_separator "" artist in
  let artist := re_sub (pat_featuring "feat.") "" artist in
  let artist := re_sub (pat_featuring "ft.") "" artist in
  strip artist.

(** ** Exceptions *)

(** The exceptions of the embedding.  The last three are what [open] and
    the readers raise on a file that exists: [OSError] for a directory or a
    file that may not be read, [UnicodeDecodeError] for bytes that are not
    UTF-8, [CsvError] for [csv.Error]. *)
Inductive exn : Type :=
| IndexError
| AttributeError
| EOFError
| OSError
| UnicodeDecodeError
| CsvError.

Inductive result (A : Type) : Type :=
| Ok (a : A)
| Raise (e : exn).
Arguments Ok {A} a.
Arguments Raise {A} e.

Definition bind {A B : Type} (m : result A) (k : A -> result B) : result B :=
  match m with
  | Ok a => k a
  | Raise e => Raise e
  end.

Notation "x <- m ;; k" := (bind m (fun x => k))
  (at level 61, m at next level, right associativity).

(** [xs[i]] *)
Definition index {A : Type} (xs : list A) (i : nat) : result A :=
  match nth_error xs i with
  | Some x => Ok x
  | None => Raise IndexError
  end.

(** Truth value of a string: [not s] holds of the empty string only. *)
Definition truthy (s : str) : bool :=
  match s with
  | [] => false
  | _ :: _ => true
  end.

(** [a or b] on strings. *)
Definition or_else (a b : str) : str := if truthy a then a else b.

(** ** The duplication guard *)

Definition should_add_artist (artist title : str) : result bool :=
  if negb (truthy artist) || str_eqb artist "Unknown Artist" then Ok false
  else
    let artist_lower := lower artist in
    let title_lower := lower title in
    if contains artist_lower title_lower then Ok false
    else
      artist_first_word <- index (split artist_lower) 0 ;;
      if (2 <? length artist_first_word)%nat
         && contains artist_first_word title_lower
      then Ok false
      else Ok true.

(** ** Song entries *)

Record song : Type := { artist : str; title : str; search : str }.

(** The dictionary literal appended by each adapter. *)
Definition entry (artist_name track_name search_term : str) : song :=
  {| artist := or_else artist_name "Unknown Artist";
     title := track_name;
     search := search_term |}.

(** The branch shared by the three adapters once an artist and a title have
    been read. *)
Definition with_artist (raw_artist raw_title : str) : result song :=
  let artist_name := clean_artist raw_artist in
  let track_name := clean_title raw_title in
  add <- should_add_artist artist_name track_name ;;
  let search_term :=
    if add then artist_name ++ (" " : str) ++ track_name else track_name in
  Ok (entry artist_name track_name search_term).

(** ** What the adapters leave behind

    [print] calls of the two file adapters are recorded as messages; an
    adapter ends by returning its list, by [sys.exit] or by an exception
    that nothing catches. *)

Inductive message : Type :=
| NoTrackName (row_num : nat)
| FileNotFound
| ReadError (e : exn).

Inductive outcome : Type :=
| Returned (songs : list song)
| SysExit (status : nat)
| Uncaught (e : exn).

(** What [open] and the iteration over the file give: no file of that
    name; the items of a file that is read to its end; or the items read
    before [open] or the reader raised [e] (none at all when [open] itself
    fails). *)
Inductive file (A : Type) : Type :=
| Missing
| Content (items : list A)
| Failing (items : list A) (e : exn).
Arguments Missing {A}.
Arguments Content {A} items.
Arguments Failing {A} items e.

(** ** The CSV adapter

    A row of [csv.DictReader] is a dictionary from column names to cells; a
    cell of a row shorter than the header is [None]. *)

Inductive cell : Type :=
| PyNone
| PyStr (s : str).

Definition row := str -> option cell.

(** [row.get(key, default)] *)
Definition get (r : row) (key : str) (default : cell) : cell :=
  match r key with
  | Some v => v
  | None => default
  end.

(** [v.strip()] on a cell. *)
Definition cell_strip (v : cell) : result str :=
  match v with
  | PyStr s => Ok (strip s)
  | PyNone => Raise AttributeError
  end.

(** One pass through the body of the [for] loop: [None] for a skipped
    row. *)
Definition csv_row (r : row) : result (option song) :=
  track_name <- cell_strip (get r "Track Name" (PyStr "")) ;;
  artist_name <- cell_strip (get r "Artist Name(s)" (PyStr "")) ;;
  if negb (truthy track_name) then Ok None
  else if truthy artist_name then
    e <- with_artist artist_name track_name ;;
    Ok (Some e)
  else
    let track_name := clean_title track_name in
    let search_term := track_name in
    Ok (Some (entry artist_name track_name search_term)).

Fixpoint csv_loop (row_num : nat) (rows : list row)
    (songs : list song) (out : list message) : outcome * list message :=
  match rows with
  | [] => (Returned songs, out)
  | r :: rows' =>
      match csv_row r with
      | Ok None =>
          csv_loop (S row_num) rows' songs (out ++ [NoTrackName row_num])
      | Ok (Some e) => csv_loop (S row_num) rows' (songs ++ [e]) out
      | Raise e => (SysExit 1, out ++ [ReadError e])
      end
  end.

Definition process_csv_export (csv_file : file row) : outcome * list message :=
  match csv_file with
  | Missing => (SysExit 1, [FileNotFound])
  | Content rows => csv_loop 1 rows [] []
  | Failing rows e =>
      match csv_loop 1 rows [] [] with
      | (Returned _, out) => (SysExit 1, out ++ [ReadError e])
      | stopped => stopped
      end
  end.

(** ** The text adapter and the interactive adapter *)

(** The part of the loop body that the two adapters share: a line that has
    been stripped and is neither blank nor a comment. *)
Definition parse_line (line : str) : result song :=
  if contains " - " line then
    let parts := split1 " - " line in
    p0 <- index parts 0 ;;
    p1 <- index parts 1 ;;
    with_artist (strip p0) (strip p1)
  else
    let artist_name : str := "" in
    let track_name := clean_title line in
    let search_term := track_name in
    Ok (entry artist_name track_name search_term).

Definition text_line (line : str) : result (option song) :=
  let line := strip line in
  if negb (truthy line) || startswith "#" line then Ok None
  else
    e <- parse_line line ;;
    Ok (Some e).

Fixpoint text_loop (line_num : nat) (lines : list str)
    (songs : list song) (out : list message) : outcome * list message :=
  match lines with
  | [] => (Returned songs, out)
  | line :: lines' =>
      match text_line line with
      | Ok None => text_loop (S line_num) lines' songs out
      | Ok (Some e) => text_loop (S line_num) lines' (songs ++ [e]) out
      | Raise e => (SysExit 1, out ++ [ReadError e])
      end
  end.

Definition process_text_list (text_file : file str) : outcome * list message :=
  match text_file with
  | Missing => (SysExit 1, [FileNotFound])
  | Content lines => text_loop 1 lines [] []
  | Failing lines e =>
      match text_loop 1 lines [] [] with
      | (Returned _, out) => (SysExit 1, out ++ [ReadError e])
      | stopped => stopped
      end
  end.

(** What one call of [input] gives: a typed line, or Ctrl-C.  The end of
    the list is the end of the input, where [input] raises [EOFError].  The
    banner and the prompts that the adapter prints are left out. *)
Inductive keyboard : Type :=
| Typed (line : str)
| Interrupt.

Fixpoint interactive_loop (console : list keyboard) (songs : list song)
    : outcome :=
  match console with
  | [] => Uncaught EOFError
  | Interrupt :: _ => SysExit 0
  | Typed typed :: console' =>
      let song_input := strip typed in
      if negb (truthy song_input) || str_eqb (lower song_input) "q"
      then Returned songs
      else
        match parse_line song_input with
        | Ok e => interactive_loop console' (songs ++ [e])
        | Raise e => Uncaught e
        end
  end.

Definition interactive_input (console : list keyboard) : outcome :=
  interactive_loop console [].

(** ** Search directives *)

Definition generate_youtube_searches (songs : list song)
    (search_quality : str) : list str :=
  fold_left
    (fun search_urls s =>
       let search_query :=
         if str_eqb search_quality "best"
         then search s ++ (" official audio" : str)
         else if str_eqb search_quality "fast" then search s
         else search s ++ (" official" : str) in
       let search_url := ("ytsearch1:" : str) ++ search_query in
       search_urls ++ [search_url])
    songs [].

(** ** Spans: the cleaners without the regular-expression engine

    Each pattern of [clean_title] marks a span of the title that starts at
    an opening character and closes on the same line.  The functions below
    find such a span directly, with no backtracking. *)

(** The text after the first [closer] of the current line. *)
Fixpoint close_on_line (closer : ascii) (s : str) : option str :=
  match s with
  | [] => None
  | c :: s' =>
      if Ascii.eqb closer c then Some s'
      else if Ascii.eqb c newline then None
      else close_on_line closer s'
  end.

(** [drop_prefix] up to letter case. *)
Fixpoint drop_prefix_i (p s : str) : option str :=
  match p, s with
  | [], _ => Some s
  | _ :: _, [] => None
  | a :: p', b :: s' =>
      if Ascii.eqb (lower_char b) (lower_char a) then drop_prefix_i p' s'
      else None
  end.

(** The text after the first occurrence of [kw], up to letter case, on the
    current line. *)
Fixpoint find_keyword (kw : str) (s : str) : option str :=
  match drop_prefix_i kw s with
  | Some rest => Some rest
  | None =>
      match s with
      | [] => None
      | c :: s' => if Ascii.eqb c newline then None else find_keyword kw s'
      end
  end.

Definition opened (opener : ascii) (s : str) : option str :=
  match s with
  | c :: s' => if Ascii.eqb opener c then Some s' else None
  | [] => None
  end.

Definition and_then {A B : Type} (o : option A) (k : A -> option B)
    : option B :=
  match o with
  | Some a => k a
  | None => None
  end.

(** An opening parenthesis, [tag], and everything up to the next closing
    parenthesis of the line. *)
Definition tagged_span (tag : str) (s : str) : option str :=
  and_then (opened "(" s) (fun s1 =>
  and_then (drop_prefix_i tag s1) (close_on_line ")")).

(** An opening parenthesis, everything up to the first [kw] of the line,
    and everything from there up to the next closing parenthesis of the
    line. *)
Definition keyword_span (kw : str) (s : str) : option str :=
  and_then (opened "(" s) (fun s1 =>
  and_then (find_keyword kw s1) (close_on_line ")")).

(** An opening bracket and everything up to the next closing bracket of the
    line. *)
Definition bracket_span (s : str) : option str :=
  and_then (opened "[" s) (close_on_line "]").

(** Removal of every span found by [m], leftmost first, without overlap. *)
Definition remove_spans (m : str -> option str) (s : str) : str :=
  sub_from m "" 0 s.

(** Every run of whitespace becomes one space; [in_run] tells that the
    previous character was whitespace. *)
Fixpoint squeeze (in_run : bool) (s : str) : str :=
  match s with
  | [] => []
  | c :: s' =>
      if isspace c
      then if in_run then squeeze true s' else " "%char :: squeeze true s'
      else c :: squeeze false s'
  end.

Definition normalize_space (s : str) : str := strip (squeeze false s).

Definition remove_noise (s : str) : str :=
  let s := remove_spans (tagged_span "feat.") s in
  let s := remove_spans (tagged_span "ft.") s in
  let s := remove_spans (tagged_span "with") s in
  let s := remove_spans (keyword_span "remix") s in
  let s := remove_spans (keyword_span "version") s in
  let s := remove_spans (keyword_span "edit") s in
  remove_spans bracket_span s.

(** ** Section 4.1 of the specification, as it is worded

    A parenthetical is an opening parenthesis and everything up to the next
    closing parenthesis; a bracketed segment likewise; nothing is said
    about their contents. *)

(** The text before and after the first [closer]. *)
Fixpoint up_to (closer : ascii) (s : str) : option (str * str) :=
  match s with
  | [] => None
  | c :: s' =>
      if Ascii.eqb closer c then Some ([], s')
      else
        match up_to closer s' with
        | Some (body, rest) => Some (c :: body, rest)
        | None => None
        end
  end.

Definition spec_tagged (tag : str) (s : str) : option str :=
  and_then (opened "(" s) (fun s1 =>
  and_then (up_to ")" s1) (fun '(body, rest) =>
  if startswith (lower tag) (lower body) then Some rest else None)).

Definition spec_keyword (kw : str) (s : str) : option str :=
  and_then (opened "(" s) (fun s1 =>
  and_then (up_to ")" s1) (fun '(body, rest) =>
  if contains (lower kw) (lower body) then Some rest else None)).

Definition spec_bracketed (s : str) : option str :=
  and_then (opened "[" s) (fun s1 =>
  and_then (up_to "]" s1) (fun '(_, rest) => Some rest)).

Definition spec_clean_title (s : str) : str :=
  let s := remove_spans (spec_tagged "feat.") s in
  let s := remove_spans (spec_tagged "ft.") s in
  let s := remove_spans (spec_tagged "with") s in
  let s := remove_spans (spec_keyword "remix") s in
  let s := remove_spans (spec_keyword "version") s in
  let s := remove_spans (spec_keyword "edit") s in
  let s := remove_spans spec_bracketed s in
  normalize_space s.

(** ** Vocabulary of the statements *)

(** Two lines of text, with the line break between them. *)
Definition two_lines (a b : str) : str := a ++ newline :: b.

(** [re.search(r, s)] finds a match. *)
Fixpoint re_search (r : regex) (s : str) : bool :=
  match match_here r s with
  | Some _ => true
  | None =>
      match s with
      | [] => false
      | _ :: s' => re_search r s'
      end
  end.

(** The number of characters that every match of a pattern takes at
    least. *)
Fixpoint count_chars (r : regex) : nat :=
  match r with
  | [] => 0
  | Char _ :: r' => S (count_chars r')
  | _ :: r' => count_chars r'
  end.

(** The seven removal patterns of [clean_title], in the order in which it
    applies them. *)
Definition noise_patterns : list regex :=
  [pat_tagged "feat."; pat_tagged "ft."; pat_tagged "with";
   pat_keyword "remix"; pat_keyword "version"; pat_keyword "edit";
   pat_bracket].

(** Every pattern of the program. *)
Definition program_patterns : list regex :=
  noise_patterns
  ++ [pat_spaces; pat_separator; pat_featuring "feat."; pat_featuring "ft."].

Definition noise_free (s : str) : bool :=
  forallb (fun r => negb (re_search r s)) noise_patterns.

(** A string of whitespace only ([not s.strip()]). *)
Definition blank (s : str) : bool := forallb isspace s.

(** The first whitespace-delimited word of a string, if it has one. *)
Fixpoint word_prefix (s : str) : str :=
  match s with
  | [] => []
  | c :: s' => if isspace c then [] else c :: word_prefix s'
  end.

Definition first_word (s : str) : option str :=
  match lstrip s with
  | [] => None
  | w => Some (word_prefix w)
  end.

(** The three reasons for which section 4.3 withholds the artist. *)
Definition guard_blocks (artist title : str) : bool :=
  (negb (truthy artist) || str_eqb artist "Unknown Artist")
  || contains (lower artist) (lower title)
  || match first_word (lower artist) with
     | Some w => (2 <? length w)%nat && contains w (lower title)
     | None => false
     end.

(** The number of positions of [hay] at which [needle] occurs. *)
Fixpoint occurrences (needle hay : str) : nat :=
  (if startswith needle hay then 1 else 0)
  + match hay with
    | [] => 0
    | _ :: hay' => occurrences needle hay'
    end.

(** The rule of section 4.4. *)
Definition assemble (add : bool) (artist_name track_name : str) : str :=
  if add then artist_name ++ (" " : str) ++ track_name else track_name.

(** No whitespace at either end. *)
Definition unpadded_left (s : str) : Prop :=
  match s with
  | [] => True
  | c :: _ => isspace c = false
  end.

Definition trimmed (s : str) : Prop :=
  unpadded_left s /\ unpadded_left (rev s).

(** Whitespace occurs only as single spaces, each followed by another
    character or by the end of the string. *)
Fixpoint tidy (s : str) : bool :=
  match s with
  | [] => true
  | c :: s' =>
      (negb (isspace c)
       || (Ascii.eqb c " "
           && match s' with
              | [] => true
              | d :: _ => negb (isspace d)
              end))
      && tidy s'
  end.

(** A keyword without a newline and without a closing parenthesis. *)
Definition plain (kw : str) : bool :=
  forallb (fun y => negb (Ascii.eqb (lower_char y) newline)
                    && negb (Ascii.eqb (lower_char y) ")")) kw.

(** The part of a keyword pattern after its opening parenthesis. *)
Definition keyword_tail (kw : str) : regex :=
  StarLazy dot :: lits_i kw ++ [StarLazy dot; lit ")"].

(** The loop test of [interactive_input]. *)
Definition stops (song_input : str) : bool :=
  negb (truthy song_input) || str_eqb (lower song_input) "q".

(** The entries that some adapter appends on some input. *)
Inductive appended : song -> Prop :=
| appended_csv (r : row) (e : song) :
    csv_row r = Ok (Some e) -> appended e
| appended_text (line : str) (e : song) :
    text_line line = Ok (Some e) -> appended e
| appended_typed (typed : str) (e : song) :
    stops (strip typed) = false ->
    parse_line (strip typed) = Ok e -> appended e.

(** The artist and the title that the body of the text and of the typed
    loop reads from a stripped line: the text on either side of the first
    separator, each stripped, or no artist and the whole line. *)
Definition line_fields (line : str) : str * str :=
  match partition_at " - " line with
  | Some (before, rest) => (strip before, strip rest)
  | None => (of_literal "", line)
  end.

(** The entry [e] is what the shared branch builds from this artist and this
    title, and its search string follows the rule of section 4.4. *)
Definition search_rule (raw_artist raw_title : str) (e : song) : Prop :=
  with_artist raw_artist raw_title = Ok e /\
  exists add,
    should_add_artist (clean_artist raw_artist) (clean_title raw_title)
    = Ok add /\
    title e = clean_title raw_title /\
    search e = assemble add (clean_artist raw_artist) (title e) /\
    (title e <> [] -> search e <> []) /\
    (add = true ->
     contains (lower (clean_artist raw_artist)) (lower (title e)) = false).

(** An entry whose artist field is filled: with the cleaned artist, or with
    the sentinel when that is the empty string. *)
Definition named (e : song) : Prop :=
  artist e <> [] /\
  exists raw_artist raw_title,
    with_artist raw_artist raw_title = Ok e /\
    (clean_artist raw_artist = [] -> artist e = "Unknown Artist") /\
    (clean_artist raw_artist <> [] -> artist e = clean_artist raw_artist).

(** Text that may stand between an opening character and [closer]: it holds
    neither [closer] nor a line break. *)
Definition inside (closer : ascii) (body : str) : bool :=
  forallb (fun x => negb (Ascii.eqb closer x) && negb (Ascii.eqb x newline))
    body.

(** Text without a line break. *)
Definition one_line (a : str) : bool :=
  forallb (fun x => negb (Ascii.eqb x newline)) a.

(** No whitespace in it. *)
Definition spaceless (p : str) : bool :=
  forallb (fun c => negb (isspace c)) p.

(** No opening parenthesis and no opening bracket. *)
Definition no_openers (s : str) : bool :=
  forallb (fun c => negb (Ascii.eqb "(" c) && negb (Ascii.eqb "[" c)) s.

(** A row of an Exportify file, reduced to the two columns that are read. *)
Definition exportify_row (track_name artist_names : str) : row :=
  fun key =>
    if str_eqb key "Track Name" then Some (PyStr track_name)
    else if str_eqb key "Artist Name(s)" then Some (PyStr artist_names)
    else None.

(** The lists that some adapter returns on some input. *)
Inductive returns : list song -> Prop :=
| returns_csv (csv_file : file row) (songs : list song) (out : list message) :
    process_csv_export csv_file = (Returned songs, out) -> returns songs
| returns_text (text_file : file str) (songs : list song)
    (out : list message) :
    process_text_list text_file = (Returned songs, out) -> returns songs
| returns_typed (console : list keyboard) (songs : list song) :
    interactive_input console = Returned songs -> returns songs.

(** The directive of section 4.6 for one search value. *)
Definition directive (search_quality : str) (query : str) : str :=
  ("ytsearch1:" : str)
  ++ query
  ++ (if str_eqb search_quality "best" then (" official audio" : str)
      else if str_eqb search_quality "fast" then ("" : str)
      else (" official" : str)).

(** ** The batch file

    [save_yt_dlp_batch_file] writes each directive and a line break;
    [writable] tells whether the file can be opened and written.  It returns
    the name of the file, after printing the number of directives, or ends
    the run with status 1. *)

Inductive saved : Type :=
| Saved (output_file : str) (text : str) (count : nat)
| SaveExit (status : nat).

Definition save_yt_dlp_batch_file (writable : bool) (search_urls : list str)
    (output_file : str) : saved :=
  if writable then
    let text :=
      fold_left (fun written url => written ++ (url ++ [newline]))
        search_urls [] in
    Saved output_file text (length search_urls)
  else SaveExit 1.

(** ** Vocabulary of the further properties *)

(** A comma or an ampersand occurs. *)
Definition has_separator (s : str) : bool := existsb (one_of ",&") s.

(** [tag] occurs, in any letter case. *)
Definition mentions (tag s : str) : bool := contains (lower tag) (lower s).

(** None of the delimiters of [clean_artist] occurs. *)
Definition delimiter_free (s : str) : bool :=
  negb (has_separator s) && negb (mentions "feat." s)
  && negb (mentions "ft." s).

(** After whitespace, the text starts with a comma or an ampersand. *)
Definition begins_with_separator (s : str) : bool :=
  match lstrip s with
  | c :: _ => one_of ",&" c
  | [] => false
  end.

(** After whitespace, the text starts with [tag], in any letter case. *)
Definition begins_with (tag s : str) : bool :=
  match drop_prefix_i tag (lstrip s) with
  | Some _ => true
  | None => false
  end.

Definition begins_with_delimiter (s : str) : bool :=
  begins_with_separator s || begins_with "feat." s || begins_with "ft." s.

(** The text before the first place at which [stop] holds. *)
Fixpoint cut (stop : str -> bool) (s : str) : str :=
  match s with
  | [] => []
  | c :: s' => if stop s then [] else c :: cut stop s'
  end.

(** A matcher finds something. *)
Definition found (m : str -> option str) (s : str) : bool :=
  match m s with
  | Some _ => true
  | None => false
  end.

(** A row whose two cells are strings. *)
Definition strings_only (r : row) : bool :=
  match get r "Track Name" (PyStr ""), get r "Artist Name(s)" (PyStr "") with
  | PyStr _, PyStr _ => true
  | _, _ => false
  end.

(** A row with a track name. *)
Definition has_track (r : row) : bool :=
  match get r "Track Name" (PyStr "") with
  | PyStr s => truthy (strip s)
  | PyNone => false
  end.

(** The numbers of the rows without a track name, counted from
    [row_num]. *)
Fixpoint skipped_rows (row_num : nat) (rows : list row) : list nat :=
  match rows with
  | [] => []
  | r :: rows' =>
      if has_track r then skipped_rows (S row_num) rows'
      else row_num :: skipped_rows (S row_num) rows'
  end.

(** A line of a text file that is neither blank nor a comment. *)
Definition kept (line : str) : bool :=
  truthy (strip line) && negb (startswith "#" (strip line)).

(** A typed line that does not end the input. *)
Definition goes_on (typed : str) : bool := negb (stops (strip typed)).

(** The number of line breaks of a text, which is what [wc -l] counts. *)
Definition count_newlines (text : str) : nat :=
  length (filter (fun c => Ascii.eqb c newline) text).

(** * Properties *)

(** ** Characters *)

Ltac each_char c := destruct c as [[] [] [] [] [] [] [] []].

Lemma isspace_lower_char (c : ascii) : isspace (lower_char c) = isspace c.
Proof. each_char c; reflexivity. Qed.

Lemma str_eqb_eq (a b : str) : str_eqb a b = true <-> a = b.
Proof.
  unfold str_eqb. destruct (list_eq_dec ascii_dec a b); split;
    congruence.
Qed.

Lemma truthy_false (s : str) : truthy s = false <-> s = [].
Proof. destruct s; simpl; split; congruence. Qed.

Lemma truthy_true (s : str) : truthy s = true <-> s <> [].
Proof. destruct s; simpl; split; congruence. Qed.

(** ** [strip] and [split] *)

Lemma lstrip_unpadded (s : str) : unpadded_left (lstrip s).
Proof.
  induction s as [|c s IH]; simpl; [exact I|].
  destruct (isspace c) eqn:E; [exact IH|]. simpl. exact E.
Qed.

Lemma rstrip_keeps_head (c : ascii) (s : str) :
  isspace c = false -> exists r, rstrip (c :: s) = c :: r.
Proof.
  intros E. simpl. destruct (rstrip s) as [|d r].
  - rewrite E. now exists [].
  - now exists (d :: r).
Qed.

Lemma strip_unpadded (s : str) : unpadded_left (strip s).
Proof.
  unfold strip. pose proof (lstrip_unpadded s) as H.
  destruct (lstrip s) as [|c t]; [exact I|].
  destruct (rstrip_keeps_head c t H) as [r ->]. exact H.
Qed.

Lemma lstrip_blank (s : str) : lstrip s = [] <-> blank s = true.
Proof.
  induction s as [|c s IH]; simpl; [tauto|].
  destruct (isspace c); simpl; [exact IH|]. split; discriminate.
Qed.

Lemma lstrip_fixed (s : str) : unpadded_left s -> lstrip s = s.
Proof. destruct s as [|c s]; simpl; [easy|]. now intros ->. Qed.

Lemma blank_lower (s : str) : blank (lower s) = blank s.
Proof.
  induction s as [|c s IH]; simpl; [reflexivity|].
  now rewrite isspace_lower_char, IH.
Qed.

Lemma split_words_head (s w : str) :
  w <> [] -> exists tl, split_words w s = (rev w ++ word_prefix s) :: tl.
Proof.
  revert w. induction s as [|c s IH]; intros w Hw; simpl.
  - destruct w; [congruence|]. rewrite app_nil_r. now exists [].
  - destruct (isspace c).
    + destruct w; [congruence|]. rewrite app_nil_r. eauto.
    + destruct (IH (c :: w)) as [tl ->]; [discriminate|].
      exists tl. simpl. now rewrite <- app_assoc.
Qed.

Lemma split_words_lstrip (s : str) :
  split_words [] s = split_words [] (lstrip s).
Proof.
  induction s as [|c s IH]; simpl; [reflexivity|].
  destruct (isspace c) eqn:E; [exact IH|]. simpl. now rewrite E.
Qed.

(** [s.split()[0]] is the first word of [s], and fails when there is
    none. *)
Lemma index_split_first (s : str) :
  index (split s) 0 =
  match first_word s with
  | Some w => Ok w
  | None => Raise IndexError
  end.
Proof.
  unfold split, first_word. rewrite split_words_lstrip.
  pose proof (lstrip_unpadded s) as H.
  destruct (lstrip s) as [|c t]; [reflexivity|].
  simpl in H. simpl. rewrite H.
  destruct (split_words_head t [c]) as [tl ->]; [discriminate|].
  reflexivity.
Qed.

Lemma first_word_some (s : str) :
  blank s = false -> exists w, first_word s = Some w.
Proof.
  intros Hb. unfold first_word.
  destruct (lstrip s) as [|c t] eqn:E.
  - apply lstrip_blank in E. congruence.
  - eauto.
Qed.

(** ** The duplication guard *)

(** The guard, with the lookup of the first word made explicit. *)
Lemma should_add_artist_unfold (artist title : str) :
  should_add_artist artist title =
  if negb (truthy artist) || str_eqb artist "Unknown Artist" then Ok false
  else if contains (lower artist) (lower title) then Ok false
  else match first_word (lower artist) with
       | Some w =>
           Ok (negb ((2 <? length w)%nat && contains w (lower title)))
       | None => Raise IndexError
       end.
Proof.
  unfold should_add_artist.
  destruct (negb (truthy artist) || str_eqb artist "Unknown Artist");
    [reflexivity|].
  destruct (contains (lower artist) (lower title)); [reflexivity|].
  rewrite index_split_first.
  destruct (first_word (lower artist)) as [w|]; simpl; [|reflexivity].
  now destruct ((2 <? length w)%nat && contains w (lower title)).
Qed.

(** On such artists the guard always returns. *)
Lemma should_add_artist_returns (artist title : str) :
  artist = [] \/ blank artist = false ->
  exists add, should_add_artist artist title = Ok add /\
    (add = true -> contains (lower artist) (lower title) = false).
Proof.
  intros H. rewrite should_add_artist_unfold.
  destruct (negb (truthy artist) || str_eqb artist "Unknown Artist") eqn:E1.
  { exists false. split; [reflexivity|discriminate]. }
  destruct (contains (lower artist) (lower title)).
  { exists false. split; [reflexivity|discriminate]. }
  destruct H as [-> | Hb]; [discriminate E1|].
  rewrite <- blank_lower in Hb.
  destruct (first_word_some _ Hb) as [w ->]. eauto.
Qed.

(** C5, amended.  For every artist that is empty or has a character that is
    not whitespace, and every title, [should_add_artist] returns, and it
    returns false exactly when the artist is empty or the sentinel, or the
    lowercased artist occurs in the lowercased title, or the first word of
    the lowercased artist is longer than two characters and occurs in the
    lowercased title. *)
Theorem should_add_artist_guard (artist title : str) :
  artist = [] \/ blank artist = false ->
  should_add_artist artist title = Ok (negb (guard_blocks artist title)).
Proof.
  intros H. rewrite should_add_artist_unfold. unfold guard_blocks.
  destruct (negb (truthy artist) || str_eqb artist "Unknown Artist") eqn:E1;
    [reflexivity|].
  destruct (contains (lower artist) (lower title)); [reflexivity|].
  destruct H as [-> | Hb]; [discriminate E1|].
  rewrite <- blank_lower in Hb.
  destruct (first_word_some _ Hb) as [w ->]. reflexivity.
Qed.

Lemma should_add_artist_guard_witness :
  blank "Drake" = false /\
  should_add_artist "Drake" "One Dance" = Ok true.
Proof.
  split; [reflexivity|].
  exact (should_add_artist_guard "Drake" "One Dance"
           (or_intror eq_refl)).
Defined.

(** The three instances that C5 names. *)
Example guard_drake_in_title :
  should_add_artist "Drake" "One Dance by Drake" = Ok false.
Proof. reflexivity. Qed.

Example guard_drake_absent :
  should_add_artist "Drake" "One Dance" = Ok true.
Proof. reflexivity. Qed.

Example guard_sentinel (t : str) :
  should_add_artist "Unknown Artist" t = Ok false.
Proof. reflexivity. Qed.

(** C5 as stated fails on an artist of whitespace only: no condition of the
    claim holds, so the claim gives true, and the code raises
    [IndexError] at [artist_lower.split()[0]]. *)
Lemma should_add_artist_blank_raises :
  guard_blocks " " "x" = false /\
  should_add_artist " " "x" = Raise IndexError.
Proof. split; reflexivity. Qed.

(** C6.  With the empty artist the guard returns false for every title,
    without an exception: the lookup of the first word, which would fail
    on the empty list of words of the empty artist, is not reached. *)
Theorem should_add_artist_empty (title : str) :
  should_add_artist "" title = Ok false /\
  split (lower "") = [] /\
  index (split (lower "")) 0 = Raise IndexError.
Proof.
  split; [|split; reflexivity].
  unfold should_add_artist. now cbn [of_literal truthy negb orb].
Qed.

(** ** The matcher on the patterns of the program *)

Lemma match_lazy_unfold (p : ascii -> bool) (r : regex) (s : str) :
  match_here (StarLazy p :: r) s =
  match match_here r s with
  | Some rest => Some rest
  | None =>
      match s with
      | c :: s' => if p c then match_here (StarLazy p :: r) s' else None
      | [] => None
      end
  end.
Proof. destruct s; reflexivity. Qed.

Lemma match_greedy_unfold (p : ascii -> bool) (r : regex) (s : str) :
  match_here (StarGreedy p :: r) s =
  match s with
  | c :: s' =>
      if p c
      then match match_here (StarGreedy p :: r) s' with
           | Some rest => Some rest
           | None => match_here r s
           end
      else match_here r s
  | [] => match_here r []
  end.
Proof. destruct s; reflexivity. Qed.

(** A match takes at least one character for each single-character node
    of the pattern. *)
Lemma match_here_length (r : regex) :
  forall s rest,
    match_here r s = Some rest -> length rest + count_chars r <= length s.
Proof.
  induction r as [|n r IH]; intros s rest.
  - intros [= <-]. simpl. lia.
  - destruct n as [p|p|p|].
    + destruct s as [|c s]; cbn [match_here count_chars]; [discriminate|].
      destruct (p c); [|discriminate].
      intros H. apply IH in H. cbn [length]. lia.
    + cbn [count_chars]. induction s as [|c s IHs];
        rewrite match_lazy_unfold.
      * destruct (match_here r []) eqn:E; [|discriminate].
        intros [= <-]. now apply IH.
      * destruct (match_here r (c :: s)) eqn:E.
        -- intros [= <-]. now apply IH.
        -- destruct (p c); [|discriminate].
           intros H. apply IHs in H. cbn [length]. lia.
    + cbn [count_chars]. induction s as [|c s IHs];
        rewrite match_greedy_unfold.
      * apply IH.
      * destruct (p c); [|apply IH].
        destruct (match_here (StarGreedy p :: r) s) eqn:E; [|apply IH].
        intros [= <-]. specialize (IHs eq_refl). cbn [length]. lia.
    + cbn [match_here count_chars]. destruct (at_end s); [|discriminate].
      apply IH.
Qed.

(** No pattern of the program matches the empty string. *)
Lemma patterns_consume (r : regex) (s rest : str) :
  In r program_patterns ->
  match_here r s = Some rest -> length rest < length s.
Proof.
  intros Hr H. apply match_here_length in H.
  assert (0 < count_chars r); [|lia].
  unfold program_patterns, noise_patterns in Hr. simpl in Hr.
  repeat (destruct Hr as [<- | Hr]; [vm_compute; lia|]).
  contradiction.
Qed.

Lemma match_lit (c : ascii) (r : regex) (s : str) :
  match_here (lit c :: r) s = and_then (opened c s) (match_here r).
Proof.
  destruct s as [|x s]; simpl; [reflexivity|].
  now destruct (Ascii.eqb c x).
Qed.

Lemma match_lits_i (p : str) (r : regex) (s : str) :
  match_here (lits_i p ++ r) s = and_then (drop_prefix_i p s) (match_here r).
Proof.
  revert s. induction p as [|a p IH]; intros s; [reflexivity|].
  destruct s as [|b s]; [reflexivity|].
  cbn [lits_i map app match_here lit_i drop_prefix_i].
  destruct (Ascii.eqb (lower_char b) (lower_char a)); [|reflexivity].
  apply IH.
Qed.

Lemma match_lazy_close (c : ascii) (s : str) :
  match_here [StarLazy dot; lit c] s = close_on_line c s.
Proof.
  induction s as [|x s IH]; [reflexivity|].
  rewrite match_lazy_unfold. simpl match_here at 1. simpl close_on_line.
  destruct (Ascii.eqb c x); [reflexivity|].
  unfold dot. destruct (Ascii.eqb x newline); simpl; [reflexivity|].
  exact IH.
Qed.

Lemma and_then_ext {A B : Type} (o : option A) (f g : A -> option B) :
  (forall a, f a = g a) -> and_then o f = and_then o g.
Proof. intros H. destruct o; simpl; auto. Qed.

(** [\(feat\..*?\)] finds the tagged span. *)
Lemma match_tagged (tag s : str) :
  match_here (pat_tagged tag) s = tagged_span tag s.
Proof.
  unfold pat_tagged, tagged_span. rewrite match_lit.
  apply and_then_ext. intros s1. rewrite match_lits_i.
  apply and_then_ext. apply match_lazy_close.
Qed.

(** [\[.*?\]] finds the bracket span. *)
Lemma match_bracket (s : str) : match_here pat_bracket s = bracket_span s.
Proof.
  unfold pat_bracket, bracket_span. rewrite match_lit.
  apply and_then_ext. apply match_lazy_close.
Qed.

Lemma lower_char_newline (x : ascii) :
  Ascii.eqb (lower_char x) newline = Ascii.eqb x newline.
Proof. each_char x; reflexivity. Qed.

Lemma lower_char_paren (x : ascii) :
  Ascii.eqb (lower_char x) ")" = Ascii.eqb x ")".
Proof. each_char x; reflexivity. Qed.

Lemma close_after_keyword (kw s s2 : str) :
  plain kw = true ->
  drop_prefix_i kw s = Some s2 ->
  close_on_line ")" s = close_on_line ")" s2.
Proof.
  revert s. induction kw as [|a kw IH]; intros s Hp H.
  - simpl in H. destruct s; congruence.
  - destruct s as [|b s]; [discriminate|].
    simpl in H, Hp.
    destruct (Ascii.eqb (lower_char b) (lower_char a)) eqn:E; [|discriminate].
    apply Ascii.eqb_eq in E.
    apply andb_prop in Hp as [Ha Hp].
    apply andb_prop in Ha as [Hn Hc].
    rewrite <- E, lower_char_newline in Hn.
    rewrite <- E, lower_char_paren in Hc.
    cbn [close_on_line]. rewrite (Ascii.eqb_sym ")" b).
    destruct (Ascii.eqb b ")"); [discriminate|].
    destruct (Ascii.eqb b newline); [discriminate|].
    now apply IH.
Qed.

Lemma keyword_tail_unfold (kw s : str) :
  match_here (keyword_tail kw) s =
  match and_then (drop_prefix_i kw s) (close_on_line ")") with
  | Some rest => Some rest
  | None =>
      match s with
      | c :: s' => if dot c then match_here (keyword_tail kw) s' else None
      | [] => None
      end
  end.
Proof.
  unfold keyword_tail. rewrite match_lazy_unfold, match_lits_i.
  now rewrite (and_then_ext _ _ _ (match_lazy_close ")")).
Qed.

Lemma close_step (c x : ascii) (s : str) :
  close_on_line c (x :: s) = None -> dot x = true ->
  close_on_line c s = None.
Proof.
  simpl. unfold dot. destruct (Ascii.eqb c x); [discriminate|].
  now destruct (Ascii.eqb x newline).
Qed.

(** Without a closing parenthesis on the line, no keyword match. *)
Lemma keyword_needs_closer (kw s : str) :
  plain kw = true ->
  close_on_line ")" s = None ->
  match_here (keyword_tail kw) s = None.
Proof.
  intros Hp. induction s as [|x s IH]; intros Hc;
    rewrite keyword_tail_unfold.
  - destruct (drop_prefix_i kw []) as [s2|] eqn:E; simpl; [|reflexivity].
    now rewrite <- (close_after_keyword _ _ _ Hp E), Hc.
  - destruct (drop_prefix_i kw (x :: s)) as [s2|] eqn:E; simpl.
    + rewrite <- (close_after_keyword _ _ _ Hp E), Hc.
      destruct (dot x) eqn:D; [|reflexivity].
      apply IH. now apply close_step with x.
    + destruct (dot x) eqn:D; [|reflexivity].
      apply IH. now apply close_step with x.
Qed.

Lemma match_keyword_tail (kw s : str) :
  plain kw = true ->
  match_here (keyword_tail kw) s =
  and_then (find_keyword kw s) (close_on_line ")").
Proof.
  intros Hp. induction s as [|x s IH]; rewrite keyword_tail_unfold.
  - simpl find_keyword.
    destruct (drop_prefix_i kw []) as [s2|] eqn:E; simpl; [|reflexivity].
    now destruct (close_on_line ")" s2).
  - simpl find_keyword.
    destruct (drop_prefix_i kw (x :: s)) as [s2|] eqn:E; simpl.
    + destruct (close_on_line ")" s2) eqn:C; [reflexivity|].
      destruct (dot x) eqn:D; [|reflexivity].
      apply keyword_needs_closer; [exact Hp|].
      apply close_step with x; [|exact D].
      now rewrite (close_after_keyword _ _ _ Hp E).
    + unfold dot. destruct (Ascii.eqb x newline); simpl; [reflexivity|].
      exact IH.
Qed.

(** [\(.*?remix.*?\)] finds the keyword span: the search settles on the
    first keyword of the line. *)
Lemma match_keyword (kw s : str) :
  plain kw = true ->
  match_here (pat_keyword kw) s = keyword_span kw s.
Proof.
  intros Hp. unfold pat_keyword, keyword_span. rewrite match_lit.
  apply and_then_ext. intros s1.
  exact (match_keyword_tail kw s1 Hp).
Qed.

(** ** The substitution loop *)

Lemma sub_from_ext (m1 m2 : str -> option str) (repl : str) :
  (forall s, m1 s = m2 s) ->
  forall s k, sub_from m1 repl k s = sub_from m2 repl k s.
Proof.
  intros H. induction s as [|c s IH]; intros k; cbn [sub_from].
  - reflexivity.
  - destruct k; [|apply IH]. rewrite H.
    destruct (m2 (c :: s)) as [rest|]; [|now rewrite IH].
    destruct (length (c :: s) - length rest); now rewrite IH.
Qed.

Lemma sub_from_skip (m : str -> option str) (repl : str) (s : str) (k : nat) :
  k <= length s ->
  sub_from m repl k s = sub_from m repl 0 (skipn k s).
Proof.
  revert k. induction s as [|c s IH]; intros k Hk.
  - simpl in Hk. now replace k with 0 by lia.
  - destruct k; [reflexivity|]. simpl in *. apply IH. lia.
Qed.

(** A pattern with no match in [s] leaves [s] as it is. *)
Lemma re_sub_no_match (r : regex) (repl s : str) :
  re_search r s = false -> re_sub r repl s = s.
Proof.
  unfold re_sub. induction s as [|c s IH]; cbn [sub_from re_search].
  - reflexivity.
  - destruct (match_here r (c :: s)); [discriminate|].
    intros H. now rewrite IH.
Qed.

(** ** Whitespace *)

Lemma match_greedy_spaces (s : str) :
  match_here [StarGreedy isspace] s = Some (lstrip s).
Proof.
  induction s as [|c s IH]; [reflexivity|].
  rewrite match_greedy_unfold. simpl lstrip.
  destruct (isspace c); [|reflexivity]. now rewrite IH.
Qed.

Lemma match_spaces (s : str) :
  match_here pat_spaces s =
  match s with
  | c :: s' => if isspace c then Some (lstrip s') else None
  | [] => None
  end.
Proof.
  destruct s as [|c s]; [reflexivity|].
  unfold pat_spaces. cbn [match_here].
  destruct (isspace c); [|reflexivity]. apply match_greedy_spaces.
Qed.

Lemma length_lstrip (s : str) : length (lstrip s) <= length s.
Proof.
  induction s as [|c s IH]; simpl; [lia|].
  destruct (isspace c); simpl; lia.
Qed.

Lemma skipn_lstrip (s : str) :
  skipn (length s - length (lstrip s)) s = lstrip s.
Proof.
  induction s as [|c s IH]; [reflexivity|].
  simpl lstrip. destruct (isspace c).
  - pose proof (length_lstrip s).
    replace (length (c :: s) - length (lstrip s))
      with (S (length s - length (lstrip s))) by (cbn [length]; lia).
    exact IH.
  - now rewrite Nat.sub_diag.
Qed.

Lemma squeeze_in_run (s : str) : squeeze true s = squeeze false (lstrip s).
Proof.
  induction s as [|c s IH]; [reflexivity|].
  simpl. destruct (isspace c) eqn:E; [exact IH|].
  simpl. now rewrite E.
Qed.

Lemma re_sub_spaces_bounded (n : nat) (s : str) :
  length s <= n -> re_sub pat_spaces " " s = squeeze false s.
Proof.
  unfold re_sub. revert s. induction n as [|n IH]; intros s Hn.
  - destruct s; [reflexivity|simpl in Hn; lia].
  - destruct s as [|c s]; [reflexivity|].
    cbn [sub_from squeeze]. rewrite match_spaces.
    destruct (isspace c).
    + pose proof (length_lstrip s) as Hl.
      replace (length (c :: s) - length (lstrip s))
        with (S (length s - length (lstrip s))) by (cbn [length]; lia).
      rewrite sub_from_skip by lia. rewrite skipn_lstrip.
      rewrite IH by (simpl in Hn; lia).
      now rewrite squeeze_in_run.
    + rewrite IH by (simpl in Hn; lia). reflexivity.
Qed.

(** [re.sub(r'\s+', ' ', s)] turns every run of whitespace into one
    space. *)
Lemma re_sub_spaces (s : str) : re_sub pat_spaces " " s = squeeze false s.
Proof. now apply re_sub_spaces_bounded with (length s). Qed.

Lemma squeeze_tidy (s : str) (in_run : bool) :
  tidy (squeeze in_run s) = true /\
  (in_run = true -> unpadded_left (squeeze in_run s)).
Proof.
  revert in_run. induction s as [|c s IH]; intros in_run.
  - simpl. auto.
  - simpl. destruct (isspace c) eqn:E.
    + destruct (IH true) as [Ht Hu]. specialize (Hu eq_refl).
      destruct in_run; [auto|]. split; [|discriminate].
      simpl. rewrite Ht.
      destruct (squeeze true s) as [|d t]; [reflexivity|].
      simpl in Hu. now rewrite Hu.
    + destruct (IH false) as [Ht _]. split.
      * simpl. now rewrite E, Ht.
      * intros _. exact E.
Qed.

Lemma tidy_squeeze (s : str) : tidy s = true -> squeeze false s = s.
Proof.
  induction s as [|c s IH]; [reflexivity|].
  simpl. intros H. apply andb_prop in H as [Hc Ht].
  destruct (isspace c) eqn:E; simpl in Hc.
  - apply andb_prop in Hc as [Hsp Hnext].
    apply Ascii.eqb_eq in Hsp. subst c.
    rewrite squeeze_in_run, lstrip_fixed, (IH Ht); [reflexivity|].
    destruct s as [|d t]; [exact I|].
    simpl. now destruct (isspace d).
  - now rewrite (IH Ht).
Qed.

Lemma tidy_lstrip (s : str) : tidy s = true -> tidy (lstrip s) = true.
Proof.
  induction s as [|c s IH]; [reflexivity|].
  intros H. simpl. destruct (isspace c); [|exact H].
  apply IH. simpl in H. now apply andb_prop in H.
Qed.

Lemma rstrip_head (s r : str) (d : ascii) :
  rstrip s = d :: r -> exists t, s = d :: t.
Proof.
  destruct s as [|c s]; simpl; [discriminate|].
  destruct (rstrip s).
  - destruct (isspace c); [discriminate|]. intros [= -> _]. eauto.
  - intros [= -> _]. eauto.
Qed.

Lemma tidy_rstrip (s : str) : tidy s = true -> tidy (rstrip s) = true.
Proof.
  induction s as [|c s IH]; [reflexivity|].
  intros H. simpl in H. apply andb_prop in H as [Hc Ht].
  specialize (IH Ht). simpl.
  destruct (rstrip s) as [|d r] eqn:R.
  - destruct (isspace c) eqn:E; [reflexivity|]. simpl. now rewrite E.
  - destruct (rstrip_head _ _ _ R) as [t ->].
    change (tidy (c :: d :: r)) with
      ((negb (isspace c) || (Ascii.eqb c " " && negb (isspace d)))
       && tidy (d :: r)).
    rewrite IH. now rewrite Hc.
Qed.

Lemma rstrip_fixed (s : str) : rstrip (rstrip s) = rstrip s.
Proof.
  induction s as [|c s IH]; [reflexivity|].
  simpl. destruct (rstrip s) as [|d r] eqn:R.
  - destruct (isspace c) eqn:E; [reflexivity|]. simpl. now rewrite E.
  - cbn [rstrip]. cbn [rstrip] in IH. now rewrite IH.
Qed.

Lemma strip_fixed (s : str) : strip (strip s) = strip s.
Proof.
  unfold strip at 1. rewrite lstrip_fixed by apply strip_unpadded.
  unfold strip. apply rstrip_fixed.
Qed.

Lemma tidy_normalize (s : str) : tidy (normalize_space s) = true.
Proof.
  unfold normalize_space, strip.
  apply tidy_rstrip, tidy_lstrip, squeeze_tidy.
Qed.

(** Whitespace normalisation does nothing the second time. *)
Lemma normalize_space_fixed (s : str) :
  normalize_space (normalize_space s) = normalize_space s.
Proof.
  unfold normalize_space at 1.
  rewrite tidy_squeeze by apply tidy_normalize.
  unfold normalize_space. apply strip_fixed.
Qed.

(** ** What the spans are *)

Lemma close_on_line_spec (c : ascii) (s rest : str) :
  close_on_line c s = Some rest <->
  exists body, s = body ++ c :: rest /\ inside c body = true.
Proof.
  split.
  - revert rest. induction s as [|x s IH]; intros rest; [discriminate|].
    cbn [close_on_line]. destruct (Ascii.eqb c x) eqn:E.
    + intros [= <-]. apply Ascii.eqb_eq in E. subst x. now exists [].
    + destruct (Ascii.eqb x newline) eqn:N; [discriminate|].
      intros H. apply IH in H as (body & -> & Hb).
      exists (x :: body). split; [reflexivity|].
      unfold inside in *. cbn [forallb]. now rewrite E, N, Hb.
  - intros (body & -> & Hb). induction body as [|x body IH].
    + cbn [app close_on_line]. now rewrite Ascii.eqb_refl.
    + unfold inside in Hb. cbn [forallb] in Hb.
      apply andb_prop in Hb as [Hx Hb]. apply andb_prop in Hx as [E N].
      apply negb_true_iff in E, N.
      change ((x :: body) ++ c :: rest) with (x :: (body ++ c :: rest)).
      cbn [close_on_line]. rewrite E, N. now apply IH.
Qed.

Lemma drop_prefix_i_spec (p s rest : str) :
  drop_prefix_i p s = Some rest <->
  exists k, s = k ++ rest /\ lower k = lower p.
Proof.
  split.
  - revert s. induction p as [|a p IH]; intros s.
    + intros [= <-]. now exists [].
    + destruct s as [|b s]; [discriminate|]. cbn [drop_prefix_i].
      destruct (Ascii.eqb (lower_char b) (lower_char a)) eqn:E;
        [|discriminate].
      intros H. apply IH in H as (k & -> & Hk).
      exists (b :: k). split; [reflexivity|].
      apply Ascii.eqb_eq in E. unfold lower in *. cbn [map]. now f_equal.
  - intros (k & -> & Hk). revert k Hk.
    induction p as [|a p IH]; intros k Hk.
    + destruct k; [reflexivity|discriminate].
    + destruct k as [|b k]; [discriminate|].
      unfold lower in Hk. cbn [map] in Hk. injection Hk as Hb Hk.
      change ((b :: k) ++ rest) with (b :: (k ++ rest)).
      cbn [drop_prefix_i]. rewrite Hb, Ascii.eqb_refl. now apply IH.
Qed.

(** A tagged span is an opening parenthesis, the tag in any letter case,
    and a body that ends at the first closing parenthesis of the line. *)
Lemma tagged_span_spec (tag s rest : str) :
  tagged_span tag s = Some rest <->
  exists k body,
    s = "("%char :: k ++ body ++ ")"%char :: rest /\
    lower k = lower tag /\ inside ")" body = true.
Proof.
  unfold tagged_span. split.
  - destruct s as [|a s]; [discriminate|]. cbn [opened].
    destruct (Ascii.eqb "(" a) eqn:E; [|discriminate].
    apply Ascii.eqb_eq in E. subst a. cbn [and_then].
    destruct (drop_prefix_i tag s) as [s2|] eqn:D; [|discriminate].
    cbn [and_then]. intros H.
    apply drop_prefix_i_spec in D as (k & -> & Hk).
    apply close_on_line_spec in H as (body & -> & Hb).
    now exists k, body.
  - intros (k & body & -> & Hk & Hb). cbn [opened].
    rewrite Ascii.eqb_refl. cbn [and_then].
    assert (D : drop_prefix_i tag (k ++ body ++ ")"%char :: rest)
                = Some (body ++ ")"%char :: rest)).
    { apply drop_prefix_i_spec. now exists k. }
    rewrite D. cbn [and_then]. apply close_on_line_spec. now exists body.
Qed.

(** A bracket span is an opening bracket and a body that ends at the first
    closing bracket of the line. *)
Lemma bracket_span_spec (s rest : str) :
  bracket_span s = Some rest <->
  exists body,
    s = "["%char :: body ++ "]"%char :: rest /\ inside "]" body = true.
Proof.
  unfold bracket_span. split.
  - destruct s as [|a s]; [discriminate|]. cbn [opened].
    destruct (Ascii.eqb "[" a) eqn:E; [|discriminate].
    apply Ascii.eqb_eq in E. subst a. cbn [and_then]. intros H.
    apply close_on_line_spec in H as (body & -> & Hb). now exists body.
  - intros (body & -> & Hb). cbn [opened].
    rewrite Ascii.eqb_refl. cbn [and_then].
    apply close_on_line_spec. now exists body.
Qed.

(** [find_keyword] stops at the first place of the line where the keyword
    stands, in any letter case. *)
Lemma find_keyword_spec (kw s rest : str) :
  find_keyword kw s = Some rest <->
  exists a k,
    s = a ++ k ++ rest /\ lower k = lower kw /\ one_line a = true /\
    forall a1 a2, a = a1 ++ a2 -> a2 <> [] ->
      drop_prefix_i kw (a2 ++ k ++ rest) = None.
Proof.
  split.
  - revert rest. induction s as [|x s IH]; intros rest; cbn [find_keyword].
    + destruct (drop_prefix_i kw []) as [r|] eqn:D; [|discriminate].
      intros [= <-]. apply drop_prefix_i_spec in D as (k & E & Hk).
      exists [], k. repeat split; [exact E|exact Hk|].
      intros a1 a2 Ha. symmetry in Ha. apply app_eq_nil in Ha as [_ ->].
      congruence.
    + destruct (drop_prefix_i kw (x :: s)) as [r|] eqn:D.
      * intros [= <-]. apply drop_prefix_i_spec in D as (k & E & Hk).
        exists [], k. repeat split; [exact E|exact Hk|].
        intros a1 a2 Ha. symmetry in Ha. apply app_eq_nil in Ha as [_ ->].
        congruence.
      * destruct (Ascii.eqb x newline) eqn:N; [discriminate|].
        intros H. apply IH in H as (a & k & -> & Hk & Ha & Hfirst).
        exists (x :: a), k. split; [reflexivity|]. split; [exact Hk|].
        split; [unfold one_line in *; cbn [forallb]; now rewrite N, Ha|].
        intros a1 a2 E Hn. destruct a1 as [|y a1].
        -- cbn [app] in E. subst a2. exact D.
        -- injection E as _ E. now apply Hfirst with a1.
  - intros (a & k & -> & Hk & Ha & Hfirst).
    induction a as [|x a IH].
    + cbn [app].
      assert (D : drop_prefix_i kw (k ++ rest) = Some rest)
        by (apply drop_prefix_i_spec; now exists k).
      destruct (k ++ rest); cbn [find_keyword]; now rewrite D.
    + change ((x :: a) ++ k ++ rest) with (x :: (a ++ k ++ rest)).
      cbn [find_keyword].
      pose proof (Hfirst [] (x :: a) eq_refl) as D.
      change ((x :: a) ++ k ++ rest) with (x :: (a ++ k ++ rest)) in D.
      rewrite D by discriminate.
      unfold one_line in Ha. cbn [forallb] in Ha.
      apply andb_prop in Ha as [N Ha]. apply negb_true_iff in N.
      rewrite N. apply IH; [exact Ha|].
      intros a1 a2 E Hn. apply (Hfirst (x :: a1) a2); [|exact Hn].
      now rewrite E.
Qed.

(** A keyword span is an opening parenthesis, the text of the line up to
    the first keyword, the keyword, and a body that ends at the first
    closing parenthesis of the line. *)
Lemma keyword_span_spec (kw s rest : str) :
  keyword_span kw s = Some rest <->
  exists a k body,
    s = "("%char :: a ++ k ++ body ++ ")"%char :: rest /\
    lower k = lower kw /\ one_line a = true /\ inside ")" body = true /\
    forall a1 a2, a = a1 ++ a2 -> a2 <> [] ->
      drop_prefix_i kw (a2 ++ k ++ body ++ ")"%char :: rest) = None.
Proof.
  unfold keyword_span. split.
  - destruct s as [|c s]; [discriminate|]. cbn [opened].
    destruct (Ascii.eqb "(" c) eqn:E; [|discriminate].
    apply Ascii.eqb_eq in E. subst c. cbn [and_then].
    destruct (find_keyword kw s) as [s2|] eqn:F; [|discriminate].
    cbn [and_then]. intros H.
    apply close_on_line_spec in H as (body & -> & Hb).
    apply find_keyword_spec in F as (a & k & -> & Hk & Ha & Hfirst).
    now exists a, k, body.
  - intros (a & k & body & -> & Hk & Ha & Hb & Hfirst). cbn [opened].
    rewrite Ascii.eqb_refl. cbn [and_then].
    assert (F : find_keyword kw (a ++ k ++ body ++ ")"%char :: rest)
                = Some (body ++ ")"%char :: rest)).
    { apply find_keyword_spec. now exists a, k. }
    rewrite F. cbn [and_then]. apply close_on_line_spec. now exists body.
Qed.

(** ** [clean_title] *)

Lemma clean_title_tail (s : str) :
  strip (re_sub pat_spaces " " s) = normalize_space s.
Proof. now rewrite re_sub_spaces. Qed.

Lemma clean_title_spans (s : str) :
  clean_title s = normalize_space (remove_noise s).
Proof.
  unfold clean_title, remove_noise, remove_spans, re_sub.
  rewrite (sub_from_ext _ _ _ (match_tagged "feat.")).
  rewrite (sub_from_ext _ _ _ (match_tagged "ft.")).
  rewrite (sub_from_ext _ _ _ (match_tagged "with")).
  rewrite (sub_from_ext _ _ _
             (fun t => match_keyword "remix" t eq_refl)).
  rewrite (sub_from_ext _ _ _
             (fun t => match_keyword "version" t eq_refl)).
  rewrite (sub_from_ext _ _ _
             (fun t => match_keyword "edit" t eq_refl)).
  rewrite (sub_from_ext _ _ _ match_bracket).
  apply clean_title_tail.
Qed.

Lemma unpadded_app (a b : str) :
  a <> [] -> unpadded_left a -> unpadded_left (a ++ b).
Proof. destruct a; [congruence|]. intros _ H. exact H. Qed.

Lemma rstrip_unpadded (s : str) : unpadded_left (rev (rstrip s)).
Proof.
  induction s as [|c s IH]; [exact I|].
  simpl. destruct (rstrip s) as [|d r] eqn:R.
  - destruct (isspace c) eqn:E; [exact I|]. exact E.
  - change (rev (c :: d :: r)) with (rev (d :: r) ++ [c]).
    apply unpadded_app; [|exact IH].
    simpl. intros H. now apply app_eq_nil in H as [_ H].
Qed.

Lemma trimmed_strip (s : str) : trimmed (strip s).
Proof. split; [apply strip_unpadded|apply rstrip_unpadded]. Qed.

(** C3, amended.  For every input, [clean_title] removes, in this order and
    each time leftmost first and without overlap: every span from an
    opening parenthesis followed, in any letter case, by [feat.], then by
    [ft.], then by [with], up to the next closing parenthesis, when that
    parenthesis comes before the end of the line; every span from an
    opening parenthesis through the first [remix], then [version], then
    [edit] of the line, in any letter case, up to the next closing
    parenthesis of the line; every span from an opening bracket up to the
    next closing bracket of the line.  It then turns every run of
    whitespace into one space and trims the result, so that the title
    returned neither starts nor ends with whitespace and holds whitespace
    only as single spaces.  The three kinds of span are those of
    [tagged_span_spec], [keyword_span_spec] and [bracket_span_spec]. *)
Theorem clean_title_removes_spans (s : str) :
  clean_title s = strip (squeeze false (remove_noise s)) /\
  trimmed (clean_title s) /\
  tidy (clean_title s) = true.
Proof.
  rewrite clean_title_spans. split; [reflexivity|].
  split; [apply trimmed_strip|apply tidy_normalize].
Qed.

(** C3 as stated fails where a bracketed segment runs over a line break,
    which the code keeps, and where a closed parenthetical stands before
    one with a keyword, which the code removes as well. *)
Lemma clean_title_differs_from_wording :
  clean_title (two_lines "Song [a" "b]") = "Song [a b]" /\
  spec_clean_title (two_lines "Song [a" "b]") = "Song" /\
  clean_title "(Live) Song (Remix)" = "" /\
  spec_clean_title "(Live) Song (Remix)" = "(Live) Song".
Proof. repeat split; reflexivity. Qed.

(** The two instances of section 8. *)
Example clean_title_feat : clean_title "Song (feat. Drake)" = "Song".
Proof. reflexivity. Qed.

Example clean_title_explicit : clean_title "Song [Explicit]" = "Song".
Proof. reflexivity. Qed.

Lemma re_search_needs_opener (c : ascii) (r : regex) (s : str) :
  forallb (fun x => negb (Ascii.eqb c x)) s = true ->
  re_search (lit c :: r) s = false.
Proof.
  induction s as [|x s IH]; [reflexivity|].
  cbn [forallb re_search]. intros H. apply andb_prop in H as [Hx H].
  rewrite match_lit. simpl. apply negb_true_iff in Hx. rewrite Hx.
  simpl. now apply IH.
Qed.

(** A title without an opening parenthesis or bracket has no noise. *)
Lemma noise_free_without_openers (s : str) :
  no_openers s = true -> noise_free s = true.
Proof.
  intros H.
  assert (Hp : forallb (fun x => negb (Ascii.eqb "(" x)) s = true).
  { apply forallb_forall. intros x Hx.
    unfold no_openers in H. rewrite forallb_forall in H.
    specialize (H x Hx). now apply andb_prop in H. }
  assert (Hb : forallb (fun x => negb (Ascii.eqb "[" x)) s = true).
  { apply forallb_forall. intros x Hx.
    unfold no_openers in H. rewrite forallb_forall in H.
    specialize (H x Hx). now apply andb_prop in H. }
  unfold noise_free, noise_patterns. cbn [forallb].
  unfold pat_tagged, pat_keyword, pat_bracket.
  rewrite !re_search_needs_opener by assumption. reflexivity.
Qed.

(** C4, amended.  Whenever none of the seven removal patterns matches in
    [clean_title x], cleaning the result again changes nothing. *)
Theorem clean_title_idempotent_when_noise_free (x : str) :
  noise_free (clean_title x) = true ->
  clean_title (clean_title x) = clean_title x.
Proof.
  intros H. set (y := clean_title x) in *.
  assert (Hall : forall r, In r noise_patterns -> re_sub r "" y = y).
  { intros r Hr. apply re_sub_no_match.
    unfold noise_free in H. rewrite forallb_forall in H.
    apply negb_true_iff. now apply H. }
  unfold clean_title at 1.
  rewrite !Hall by (unfold noise_patterns; simpl; tauto).
  rewrite clean_title_tail. subst y.
  rewrite clean_title_spans. apply normalize_space_fixed.
Qed.

Lemma clean_title_idempotent_witness :
  noise_free (clean_title "Song (feat. Drake)") = true /\
  clean_title (clean_title "Song (feat. Drake)")
  = clean_title "Song (feat. Drake)".
Proof.
  split; [reflexivity|].
  apply clean_title_idempotent_when_noise_free. reflexivity.
Defined.

(** C4 as stated fails: removing the bracket leaves a parenthetical that a
    second pass removes. *)
Lemma clean_title_not_idempotent :
  clean_title "Song ([x]feat. B)" = "Song (feat. B)" /\
  clean_title (clean_title "Song ([x]feat. B)") = "Song".
Proof. split; reflexivity. Qed.

(** ** Whitespace around a title *)

Lemma blank_cons (c : ascii) (w : str) :
  blank (c :: w) = true <-> isspace c = true /\ blank w = true.
Proof. unfold blank. cbn [forallb]. apply andb_true_iff. Qed.

Section Padding.

(** A matcher that finds nothing at whitespace and that is not disturbed
    by whitespace added at the end. *)
Variable m : str -> option str.
Hypothesis m_space : forall c s, isspace c = true -> m (c :: s) = None.
Hypothesis m_pad :
  forall x w, blank w = true ->
    m (x ++ w) = option_map (fun r => r ++ w) (m x).

Lemma remove_blank (w : str) : blank w = true -> remove_spans m w = w.
Proof.
  unfold remove_spans. induction w as [|c w IH]; cbn [sub_from].
  - reflexivity.
  - intros H. apply blank_cons in H as [Hc H].
    now rewrite (m_space _ _ Hc), IH.
Qed.

Lemma sub_pad_right (x : str) :
  forall k w, blank w = true -> k <= length x ->
    sub_from m "" k (x ++ w) = sub_from m "" k x ++ w.
Proof.
  induction x as [|c x IH]; intros k w Hw Hk.
  - simpl in Hk. replace k with 0 by lia.
    cbn [app sub_from]. now apply remove_blank.
  - change ((c :: x) ++ w) with (c :: (x ++ w)).
    cbn [sub_from]. destruct k as [|k].
    + pose proof (m_pad (c :: x) w Hw) as Hm.
      change ((c :: x) ++ w) with (c :: (x ++ w)) in Hm. rewrite Hm.
      destruct (m (c :: x)) as [rest|] eqn:E; cbn [option_map].
      * replace (length (c :: x ++ w) - length (rest ++ w))
          with (length (c :: x) - length rest)
          by (cbn [length]; rewrite !length_app; lia).
        change (of_literal "") with (@nil ascii). cbn [app].
        destruct (length (c :: x) - length rest) as [|j] eqn:L.
        -- now rewrite IH by (assumption || lia).
        -- apply IH; [exact Hw|]. cbn [length] in L. lia.
      * now rewrite IH by (assumption || lia).
    + apply IH; [exact Hw|]. simpl in Hk. lia.
Qed.

Lemma remove_padded (w1 x w2 : str) :
  blank w1 = true -> blank w2 = true ->
  remove_spans m (w1 ++ x ++ w2) = w1 ++ remove_spans m x ++ w2.
Proof.
  intros H1 H2. induction w1 as [|c w1 IH].
  - apply (sub_pad_right x 0 w2); [exact H2|lia].
  - apply blank_cons in H1 as [Hc H1].
    change ((c :: w1) ++ x ++ w2) with (c :: (w1 ++ x ++ w2)).
    unfold remove_spans in *. cbn [sub_from].
    rewrite (m_space _ _ Hc), (IH H1). reflexivity.
Qed.

End Padding.

Lemma close_blank (c : ascii) (w : str) :
  isspace c = false -> blank w = true -> close_on_line c w = None.
Proof.
  intros Hc. induction w as [|b w IH]; [reflexivity|].
  intros H. apply blank_cons in H as [Hb H]. cbn [close_on_line].
  destruct (Ascii.eqb c b) eqn:E.
  - apply Ascii.eqb_eq in E. congruence.
  - destruct (Ascii.eqb b newline); [reflexivity|]. now apply IH.
Qed.

Lemma close_pad (c : ascii) (x w : str) :
  isspace c = false -> blank w = true ->
  close_on_line c (x ++ w) = option_map (fun r => r ++ w) (close_on_line c x).
Proof.
  intros Hc Hw. induction x as [|b x IH].
  - now apply close_blank.
  - change ((b :: x) ++ w) with (b :: (x ++ w)). cbn [close_on_line].
    destruct (Ascii.eqb c b); [reflexivity|].
    destruct (Ascii.eqb b newline); [reflexivity|]. exact IH.
Qed.

Lemma lower_char_space_free (a b : ascii) :
  isspace a = false -> isspace b = true ->
  Ascii.eqb (lower_char b) (lower_char a) = false.
Proof.
  intros Ha Hb. destruct (Ascii.eqb (lower_char b) (lower_char a)) eqn:E;
    [|reflexivity].
  apply Ascii.eqb_eq in E.
  rewrite <- (isspace_lower_char a), <- E, isspace_lower_char in Ha.
  congruence.
Qed.

Lemma drop_prefix_i_pad (p x w : str) :
  spaceless p = true -> blank w = true ->
  drop_prefix_i p (x ++ w) = option_map (fun r => r ++ w) (drop_prefix_i p x).
Proof.
  intros Hp Hw. revert x. induction p as [|a p IH]; intros x.
  - reflexivity.
  - unfold spaceless in Hp. cbn [forallb] in Hp.
    apply andb_prop in Hp as [Ha Hp]. apply negb_true_iff in Ha.
    destruct x as [|b x].
    + cbn [app]. destruct w as [|b w]; [reflexivity|].
      apply blank_cons in Hw as [Hb _]. cbn [drop_prefix_i option_map].
      now rewrite lower_char_space_free.
    + change ((b :: x) ++ w) with (b :: (x ++ w)). cbn [drop_prefix_i].
      destruct (Ascii.eqb (lower_char b) (lower_char a)); [|reflexivity].
      now apply IH.
Qed.

Lemma find_keyword_blank (kw w : str) :
  spaceless kw = true -> blank w = true ->
  drop_prefix_i kw [] = None -> find_keyword kw w = None.
Proof.
  intros Hk Hw Hn. induction w as [|b w IH].
  - cbn [find_keyword]. now rewrite Hn.
  - pose proof (drop_prefix_i_pad kw [] (b :: w) Hk Hw) as H.
    cbn [app] in H. rewrite Hn in H. cbn [option_map] in H.
    cbn [find_keyword]. rewrite H.
    destruct (Ascii.eqb b newline); [reflexivity|].
    apply IH. now apply blank_cons in Hw.
Qed.

Lemma find_keyword_pad (kw x w : str) :
  spaceless kw = true -> blank w = true ->
  find_keyword kw (x ++ w) = option_map (fun r => r ++ w) (find_keyword kw x).
Proof.
  intros Hk Hw. induction x as [|b x IH].
  - cbn [app]. pose proof (drop_prefix_i_pad kw [] w Hk Hw) as H.
    cbn [app] in H. cbn [find_keyword].
    destruct (drop_prefix_i kw []) as [r|] eqn:E; cbn [option_map] in *.
    + destruct w; cbn [find_keyword]; now rewrite H.
    + now apply find_keyword_blank.
  - pose proof (drop_prefix_i_pad kw (b :: x) w Hk Hw) as H.
    change ((b :: x) ++ w) with (b :: (x ++ w)) in *.
    cbn [find_keyword]. rewrite H.
    destruct (drop_prefix_i kw (b :: x)); cbn [option_map]; [reflexivity|].
    destruct (Ascii.eqb b newline); [reflexivity|]. exact IH.
Qed.

Lemma opened_pad (c : ascii) (x w : str) :
  isspace c = false -> blank w = true ->
  opened c (x ++ w) = option_map (fun r => r ++ w) (opened c x).
Proof.
  intros Hc Hw. destruct x as [|b x].
  - cbn [app]. destruct w as [|b w]; [reflexivity|].
    apply blank_cons in Hw as [Hb _]. cbn [opened option_map].
    destruct (Ascii.eqb c b) eqn:E; [|reflexivity].
    apply Ascii.eqb_eq in E. congruence.
  - change ((b :: x) ++ w) with (b :: (x ++ w)). cbn [opened].
    now destruct (Ascii.eqb c b).
Qed.

Lemma opened_space (c b : ascii) (s : str) :
  isspace c = false -> isspace b = true -> opened c (b :: s) = None.
Proof.
  intros Hc Hb. cbn [opened]. destruct (Ascii.eqb c b) eqn:E; [|reflexivity].
  apply Ascii.eqb_eq in E. congruence.
Qed.

Lemma and_then_pad (o : option str) (w : str) (f : str -> option str) :
  (forall r, f (r ++ w) = option_map (fun t => t ++ w) (f r)) ->
  and_then (option_map (fun r => r ++ w) o) f
  = option_map (fun t => t ++ w) (and_then o f).
Proof. intros H. destruct o; simpl; auto. Qed.

Lemma tagged_span_pad (tag x w : str) :
  spaceless tag = true -> blank w = true ->
  tagged_span tag (x ++ w) = option_map (fun r => r ++ w) (tagged_span tag x).
Proof.
  intros Ht Hw. unfold tagged_span. rewrite opened_pad by easy.
  apply and_then_pad. intros r. rewrite drop_prefix_i_pad by easy.
  apply and_then_pad. intros t. now apply close_pad.
Qed.

Lemma keyword_span_pad (kw x w : str) :
  spaceless kw = true -> blank w = true ->
  keyword_span kw (x ++ w)
  = option_map (fun r => r ++ w) (keyword_span kw x).
Proof.
  intros Hk Hw. unfold keyword_span. rewrite opened_pad by easy.
  apply and_then_pad. intros r. rewrite find_keyword_pad by easy.
  apply and_then_pad. intros t. now apply close_pad.
Qed.

Lemma bracket_span_pad (x w : str) :
  blank w = true ->
  bracket_span (x ++ w) = option_map (fun r => r ++ w) (bracket_span x).
Proof.
  intros Hw. unfold bracket_span. rewrite opened_pad by easy.
  apply and_then_pad. intros t. now apply close_pad.
Qed.

Lemma remove_tagged_padded (tag w1 x w2 : str) :
  spaceless tag = true -> blank w1 = true -> blank w2 = true ->
  remove_spans (tagged_span tag) (w1 ++ x ++ w2)
  = w1 ++ remove_spans (tagged_span tag) x ++ w2.
Proof.
  intros Ht. apply remove_padded.
  - intros c s Hc. unfold tagged_span. now rewrite opened_space.
  - intros y w. now apply tagged_span_pad.
Qed.

Lemma remove_keyword_padded (kw w1 x w2 : str) :
  spaceless kw = true -> blank w1 = true -> blank w2 = true ->
  remove_spans (keyword_span kw) (w1 ++ x ++ w2)
  = w1 ++ remove_spans (keyword_span kw) x ++ w2.
Proof.
  intros Hk. apply remove_padded.
  - intros c s Hc. unfold keyword_span. now rewrite opened_space.
  - intros y w. now apply keyword_span_pad.
Qed.

Lemma remove_bracket_padded (w1 x w2 : str) :
  blank w1 = true -> blank w2 = true ->
  remove_spans bracket_span (w1 ++ x ++ w2)
  = w1 ++ remove_spans bracket_span x ++ w2.
Proof.
  apply remove_padded.
  - intros c s Hc. unfold bracket_span. now rewrite opened_space.
  - intros y w. now apply bracket_span_pad.
Qed.

Lemma remove_noise_padded (w1 x w2 : str) :
  blank w1 = true -> blank w2 = true ->
  remove_noise (w1 ++ x ++ w2) = w1 ++ remove_noise x ++ w2.
Proof.
  intros H1 H2. unfold remove_noise.
  rewrite !remove_tagged_padded by easy.
  rewrite !remove_keyword_padded by easy.
  now rewrite remove_bracket_padded.
Qed.

Lemma lstrip_split (s : str) :
  exists w, blank w = true /\ s = w ++ lstrip s.
Proof.
  induction s as [|c s (w & Hw & E)]; [now exists []|].
  simpl. destruct (isspace c) eqn:C.
  - exists (c :: w). split; [now apply blank_cons|]. simpl. now f_equal.
  - now exists [].
Qed.

Lemma rstrip_split (s : str) :
  exists w, blank w = true /\ s = rstrip s ++ w.
Proof.
  induction s as [|c s (w & Hw & E)]; [now exists []|].
  simpl. destruct (rstrip s) as [|d r].
  - simpl in E. subst w. destruct (isspace c) eqn:C.
    + exists (c :: s). split; [now apply blank_cons|reflexivity].
    + exists s. now split.
  - exists w. split; [exact Hw|]. simpl. now f_equal.
Qed.

Lemma strip_split (s : str) :
  exists w1 w2, blank w1 = true /\ blank w2 = true /\
                s = w1 ++ strip s ++ w2.
Proof.
  destruct (lstrip_split s) as (w1 & H1 & E1).
  destruct (rstrip_split (lstrip s)) as (w2 & H2 & E2).
  exists w1, w2. unfold strip. now rewrite <- E2.
Qed.

Lemma lstrip_squeeze (s : str) :
  lstrip (squeeze false s) = squeeze false (lstrip s).
Proof.
  destruct s as [|c s]; [reflexivity|].
  simpl. destruct (isspace c) eqn:C.
  - change (lstrip (" "%char :: squeeze true s))
      with (lstrip (squeeze true s)).
    rewrite lstrip_fixed by now apply squeeze_tidy.
    apply squeeze_in_run.
  - simpl. now rewrite C.
Qed.

Lemma lstrip_blank_app (w z : str) :
  blank w = true -> lstrip (w ++ z) = lstrip z.
Proof.
  induction w as [|c w IH]; [reflexivity|].
  intros H. apply blank_cons in H as [Hc H]. simpl. rewrite Hc. now apply IH.
Qed.

Lemma squeeze_blank (w : str) (in_run : bool) :
  blank w = true -> blank (squeeze in_run w) = true.
Proof.
  revert in_run. induction w as [|c w IH]; intros in_run H; [reflexivity|].
  apply blank_cons in H as [Hc H]. simpl. rewrite Hc.
  destruct in_run; [now apply IH|].
  apply blank_cons. split; [reflexivity|now apply IH].
Qed.

Lemma squeeze_pad (y w : str) :
  blank w = true ->
  forall in_run, exists w',
    blank w' = true /\ squeeze in_run (y ++ w) = squeeze in_run y ++ w'.
Proof.
  intros Hw. induction y as [|c y IH]; intros in_run.
  - exists (squeeze in_run w). split; [now apply squeeze_blank|reflexivity].
  - simpl. destruct (isspace c).
    + destruct (IH true) as (w' & H' & E). exists w'. split; [exact H'|].
      rewrite E. now destruct in_run.
    + destruct (IH false) as (w' & H' & E). exists w'. split; [exact H'|].
      now rewrite E.
Qed.

Lemma rstrip_blank (w : str) : blank w = true -> rstrip w = [].
Proof.
  induction w as [|c w IH]; [reflexivity|].
  intros H. apply blank_cons in H as [Hc H]. simpl.
  now rewrite (IH H), Hc.
Qed.

Lemma rstrip_blank_app (a w : str) :
  blank w = true -> rstrip (a ++ w) = rstrip a.
Proof.
  intros Hw. induction a as [|c a IH]; [now apply rstrip_blank|].
  simpl. now rewrite IH.
Qed.

Lemma lstrip_app_pad (a w : str) :
  blank w = true ->
  exists w', blank w' = true /\ lstrip (a ++ w) = lstrip a ++ w'.
Proof.
  intros Hw. induction a as [|c a (w' & H' & E)].
  - exists []. split; [reflexivity|]. simpl.
    now apply lstrip_blank.
  - simpl. destruct (isspace c); [now exists w'|now exists w].
Qed.

Lemma normalize_space_padded (w1 y w2 : str) :
  blank w1 = true -> blank w2 = true ->
  normalize_space (w1 ++ y ++ w2) = normalize_space y.
Proof.
  intros H1 H2. unfold normalize_space, strip.
  rewrite lstrip_squeeze, lstrip_blank_app, <- lstrip_squeeze by exact H1.
  destruct (squeeze_pad y w2 H2 false) as (w' & H' & ->).
  destruct (lstrip_app_pad (squeeze false y) w' H') as (w'' & H'' & ->).
  now apply rstrip_blank_app.
Qed.

(** Whitespace around a title does not change what [clean_title] makes of
    it. *)
Lemma clean_title_strip (s : str) : clean_title (strip s) = clean_title s.
Proof.
  destruct (strip_split s) as (w1 & w2 & H1 & H2 & E).
  remember (strip s) as core. rewrite E, !clean_title_spans.
  rewrite remove_noise_padded by assumption.
  symmetry. now apply normalize_space_padded.
Qed.

Lemma startswith_app (p x b : str) :
  startswith p x = true -> startswith p (x ++ b) = true.
Proof.
  revert x. induction p as [|a p IH]; intros x; [reflexivity|].
  destruct x as [|c x]; [discriminate|].
  simpl. intros H. apply andb_prop in H as [-> H]. now apply IH.
Qed.

Lemma contains_app_r (p x b : str) :
  contains p x = true -> contains p (x ++ b) = true.
Proof.
  induction x as [|c x IH]; cbn [contains]; intros H;
    apply orb_prop in H as [H|H].
  - apply (startswith_app _ _ b) in H. cbn [app] in *.
    destruct b; cbn [contains]; now rewrite H.
  - discriminate.
  - apply (startswith_app _ _ b) in H.
    change ((c :: x) ++ b) with (c :: (x ++ b)) in *.
    cbn [contains]. now rewrite H.
  - change ((c :: x) ++ b) with (c :: (x ++ b)).
    cbn [contains]. rewrite (IH H). apply orb_true_r.
Qed.

Lemma contains_app_l (p a x : str) :
  contains p x = true -> contains p (a ++ x) = true.
Proof.
  intros H. induction a as [|c a IH]; [exact H|].
  change ((c :: a) ++ x) with (c :: (a ++ x)).
  cbn [contains]. rewrite IH. apply orb_true_r.
Qed.

(** A line without the separator has none after stripping either. *)
Lemma contains_strip (p s : str) :
  contains p s = false -> contains p (strip s) = false.
Proof.
  intros H. destruct (contains p (strip s)) eqn:C; [|reflexivity].
  destruct (strip_split s) as (w1 & w2 & _ & _ & E).
  apply (contains_app_r _ _ w2), (contains_app_l _ w1) in C.
  rewrite <- E in C. congruence.
Qed.

(** ** The adapters *)

Lemma unpadded_not_blank (s : str) :
  unpadded_left s -> s = [] \/ blank s = false.
Proof.
  destruct s as [|c s]; [now left|]. simpl. intros ->. now right.
Qed.

Lemma strip_nonempty (s : str) :
  unpadded_left s -> s <> [] -> strip s <> [].
Proof.
  intros Hu Hs. unfold strip. rewrite lstrip_fixed by exact Hu.
  destruct s as [|c s]; [congruence|].
  destruct (rstrip_keeps_head c s Hu) as [r ->]. discriminate.
Qed.

(** Once an artist and a title have been read, the entry is built without
    an exception, by the rule of section 4.4. *)
Lemma with_artist_returns (raw_artist raw_title : str) :
  exists add,
    should_add_artist (clean_artist raw_artist) (clean_title raw_title)
    = Ok add /\
    (add = true ->
     contains (lower (clean_artist raw_artist))
       (lower (clean_title raw_title)) = false) /\
    with_artist raw_artist raw_title
    = Ok (entry (clean_artist raw_artist) (clean_title raw_title)
            (assemble add (clean_artist raw_artist)
               (clean_title raw_title))).
Proof.
  destruct (should_add_artist_returns (clean_artist raw_artist)
              (clean_title raw_title)) as (add & Hadd & Hno).
  { apply unpadded_not_blank. unfold clean_artist. apply strip_unpadded. }
  exists add. split; [exact Hadd|]. split; [exact Hno|].
  unfold with_artist. rewrite Hadd. reflexivity.
Qed.

Lemma with_artist_absent (raw_title : str) :
  with_artist "" raw_title
  = Ok (entry "" (clean_title raw_title) (clean_title raw_title)).
Proof. reflexivity. Qed.

Lemma startswith_drop_prefix (p s : str) :
  startswith p s =
  match drop_prefix p s with
  | Some _ => true
  | None => false
  end.
Proof.
  revert s. induction p as [|a p IH]; intros s; [reflexivity|].
  destruct s as [|b s]; [reflexivity|].
  simpl. destruct (Ascii.eqb a b); [apply IH|reflexivity].
Qed.

Lemma contains_partition (sep s : str) :
  contains sep s =
  match partition_at sep s with
  | Some _ => true
  | None => false
  end.
Proof.
  induction s as [|c s IH]; cbn [contains partition_at];
    rewrite startswith_drop_prefix.
  - now destruct (drop_prefix sep []).
  - destruct (drop_prefix sep (c :: s)); [reflexivity|].
    rewrite IH. simpl. now destruct (partition_at sep s) as [[? ?]|].
Qed.

Lemma parse_line_separator (line before rest : str) :
  partition_at " - " line = Some (before, rest) ->
  parse_line line = with_artist (strip before) (strip rest).
Proof.
  intros H. unfold parse_line, split1.
  rewrite contains_partition, H. reflexivity.
Qed.

Lemma parse_line_bare (line : str) :
  contains " - " line = false ->
  parse_line line = Ok (entry "" (clean_title line) (clean_title line)).
Proof. intros H. unfold parse_line. now rewrite H. Qed.

(** On a stripped line the text before the separator starts with a
    character that is not whitespace. *)
Lemma partition_before (line before rest : str) :
  unpadded_left line ->
  partition_at " - " line = Some (before, rest) ->
  before <> [] /\ unpadded_left before.
Proof.
  destruct line as [|c line]; [discriminate|].
  intros Hc H. simpl in Hc. cbn [partition_at] in H.
  assert (E : Ascii.eqb " " c = false).
  { destruct (Ascii.eqb " " c) eqn:E; [|reflexivity].
    apply Ascii.eqb_eq in E. subst c. discriminate. }
  change (drop_prefix " - " (c :: line))
    with (if Ascii.eqb " " c then drop_prefix "- " line else None) in H.
  rewrite E in H.
  destruct (partition_at " - " line) as [[b r]|]; [|discriminate].
  injection H as <- _. split; [discriminate|exact Hc].
Qed.

Lemma parse_line_inv (line : str) (e : song) :
  parse_line line = Ok e ->
  exists raw_artist raw_title, with_artist raw_artist raw_title = Ok e.
Proof.
  destruct (partition_at " - " line) as [[before rest]|] eqn:P.
  - rewrite (parse_line_separator _ _ _ P). eauto.
  - rewrite parse_line_bare by now rewrite contains_partition, P.
    intros H. exists (""), line. now rewrite with_artist_absent.
Qed.

Lemma csv_row_inv (r : row) (e : song) :
  csv_row r = Ok (Some e) ->
  exists raw_artist raw_title, with_artist raw_artist raw_title = Ok e.
Proof.
  unfold csv_row.
  destruct (cell_strip (get r "Track Name" (PyStr ""))) as [t|];
    cbn [bind]; [|discriminate].
  destruct (cell_strip (get r "Artist Name(s)" (PyStr ""))) as [a|];
    cbn [bind]; [|discriminate].
  destruct (truthy t); cbn [negb]; [|discriminate].
  destruct (truthy a) eqn:Ta.
  - destruct (with_artist a t) as [e'|] eqn:W; cbn [bind]; [|discriminate].
    intros [= <-]. eauto.
  - apply truthy_false in Ta. subst a. intros [= <-].
    exists (""), t. apply with_artist_absent.
Qed.

Lemma text_line_inv (line : str) (e : song) :
  text_line line = Ok (Some e) -> parse_line (strip line) = Ok e.
Proof.
  unfold text_line.
  destruct (negb (truthy (strip line)) || startswith "#" (strip line));
    [discriminate|].
  destruct (parse_line (strip line)); cbn [bind]; congruence.
Qed.

Lemma appended_inv (e : song) :
  appended e ->
  exists raw_artist raw_title, with_artist raw_artist raw_title = Ok e.
Proof.
  intros [r e' H | line e' H | typed e' _ H].
  - now apply csv_row_inv with r.
  - apply text_line_inv in H. now apply parse_line_inv with (strip line).
  - now apply parse_line_inv with (strip typed).
Qed.

(** The loops append what their bodies build, and nothing else. *)
Lemma csv_loop_appended (rows : list row) :
  forall row_num songs out songs' out',
    csv_loop row_num rows songs out = (Returned songs', out') ->
    Forall appended songs -> Forall appended songs'.
Proof.
  induction rows as [|r rows IH]; intros n songs out songs' out' H Hs.
  - simpl in H. now injection H as <- _.
  - simpl in H. destruct (csv_row r) as [[e|]|] eqn:R; [| |discriminate].
    + apply IH in H; [exact H|].
      apply Forall_app. split; [exact Hs|].
      constructor; [|constructor]. now apply appended_csv with r.
    + now apply IH in H.
Qed.

Lemma text_loop_appended (lines : list str) :
  forall line_num songs out songs' out',
    text_loop line_num lines songs out = (Returned songs', out') ->
    Forall appended songs -> Forall appended songs'.
Proof.
  induction lines as [|l lines IH]; intros n songs out songs' out' H Hs.
  - simpl in H. now injection H as <- _.
  - simpl in H. destruct (text_line l) as [[e|]|] eqn:R; [| |discriminate].
    + apply IH in H; [exact H|].
      apply Forall_app. split; [exact Hs|].
      constructor; [|constructor]. now apply appended_text with l.
    + now apply IH in H.
Qed.

Lemma interactive_loop_appended (console : list keyboard) :
  forall songs songs',
    interactive_loop console songs = Returned songs' ->
    Forall appended songs -> Forall appended songs'.
Proof.
  induction console as [|k console IH]; intros songs songs' H Hs.
  - discriminate.
  - destruct k as [typed|]; [|discriminate]. cbn [interactive_loop] in H.
    fold (stops (strip typed)) in H.
    destruct (stops (strip typed)) eqn:St.
    + now injection H as <-.
    + destruct (parse_line (strip typed)) as [e|] eqn:P; [|discriminate].
      apply IH in H; [exact H|].
      apply Forall_app. split; [exact Hs|].
      constructor; [|constructor]. now apply appended_typed with typed.
Qed.

Lemma returns_appended (songs : list song) :
  returns songs -> Forall appended songs.
Proof.
  intros [f songs' out H | f songs' out H | console songs' H].
  - destruct f as [|rows|rows e]; [discriminate| |].
    + now apply csv_loop_appended in H.
    + cbn [process_csv_export] in H.
      destruct (csv_loop 1 rows [] []) as [[s|n|x] o]; discriminate.
  - destruct f as [|lines|lines e]; [discriminate| |].
    + now apply text_loop_appended in H.
    + cbn [process_text_list] in H.
      destruct (text_loop 1 lines [] []) as [[s|n|x] o]; discriminate.
  - now apply interactive_loop_appended in H.
Qed.

(** ** The search string *)

(** C1.  An entry built from a row or a line that gives an artist has as
    its search string the cleaned artist, one space and the cleaned title
    when [should_add_artist] accepts the pair, and the cleaned title alone
    otherwise; the guard never raises there, and a title that cleans to
    the empty string goes through the same rule.  The three parts are the
    CSV row, the text line and the typed line; in the last two the artist
    is the text before the first separator, which is never empty. *)
Theorem search_follows_rule :
  (forall (r : row) (raw_title raw_artist : str),
      get r "Track Name" (PyStr "") = PyStr raw_title ->
      get r "Artist Name(s)" (PyStr "") = PyStr raw_artist ->
      strip raw_title <> [] ->
      strip raw_artist <> [] ->
      let artist_name := clean_artist (strip raw_artist) in
      let track_name := clean_title (strip raw_title) in
      exists add e,
        should_add_artist artist_name track_name = Ok add /\
        csv_row r = Ok (Some e) /\
        title e = track_name /\
        search e = assemble add artist_name track_name)
  /\
  (forall (line before rest : str),
      strip line <> [] ->
      startswith "#" (strip line) = false ->
      partition_at " - " (strip line) = Some (before, rest) ->
      let artist_name := clean_artist (strip before) in
      let track_name := clean_title (strip rest) in
      strip before <> [] /\
      exists add e,
        should_add_artist artist_name track_name = Ok add /\
        text_line line = Ok (Some e) /\
        title e = track_name /\
        search e = assemble add artist_name track_name)
  /\
  (forall (typed before rest : str) (console : list keyboard)
          (songs : list song),
      stops (strip typed) = false ->
      partition_at " - " (strip typed) = Some (before, rest) ->
      let artist_name := clean_artist (strip before) in
      let track_name := clean_title (strip rest) in
      strip before <> [] /\
      exists add e,
        should_add_artist artist_name track_name = Ok add /\
        interactive_loop (Typed typed :: console) songs
        = interactive_loop console (songs ++ [e]) /\
        title e = track_name /\
        search e = assemble add artist_name track_name).
Proof.
  split; [|split].
  - intros r raw_title raw_artist Ht Ha Hnt Hna artist_name track_name.
    destruct (with_artist_returns (strip raw_artist) (strip raw_title))
      as (add & Hadd & _ & W).
    exists add, (entry artist_name track_name
                   (assemble add artist_name track_name)).
    split; [exact Hadd|]. split; [|split; reflexivity].
    unfold csv_row. rewrite Ht, Ha. cbn [cell_strip bind].
    apply truthy_true in Hnt, Hna. rewrite Hnt, Hna. cbn [negb].
    rewrite W. reflexivity.
  - intros line before rest Hl Hc P artist_name track_name.
    destruct (partition_before _ _ _ (strip_unpadded line) P) as [Hb Hu].
    split; [now apply strip_nonempty|].
    destruct (with_artist_returns (strip before) (strip rest))
      as (add & Hadd & _ & W).
    exists add, (entry artist_name track_name
                   (assemble add artist_name track_name)).
    split; [exact Hadd|]. split; [|split; reflexivity].
    unfold text_line. apply truthy_true in Hl. rewrite Hl, Hc.
    cbn [negb orb]. rewrite (parse_line_separator _ _ _ P), W.
    reflexivity.
  - intros typed before rest console songs Hs P artist_name track_name.
    destruct (partition_before _ _ _ (strip_unpadded typed) P) as [Hb Hu].
    split; [now apply strip_nonempty|].
    destruct (with_artist_returns (strip before) (strip rest))
      as (add & Hadd & _ & W).
    exists add, (entry artist_name track_name
                   (assemble add artist_name track_name)).
    split; [exact Hadd|]. split; [|split; reflexivity].
    cbn [interactive_loop]. fold (stops (strip typed)). rewrite Hs.
    rewrite (parse_line_separator _ _ _ P), W. reflexivity.
Qed.

Lemma search_follows_rule_witness :
  exists add e,
    should_add_artist (clean_artist (strip "Drake"))
      (clean_title (strip "One Dance")) = Ok add /\
    csv_row (exportify_row "One Dance" "Drake") = Ok (Some e) /\
    title e = clean_title (strip "One Dance") /\
    search e = assemble add (clean_artist (strip "Drake"))
                 (clean_title (strip "One Dance")).
Proof.
  apply (proj1 search_follows_rule
           (exportify_row "One Dance" "Drake") "One Dance" "Drake");
    try reflexivity; discriminate.
Defined.

(** The instances of section 8. *)
Example search_without_overlap :
  with_artist "The Weeknd" "Blinding Lights"
  = Ok {| artist := "The Weeknd"; title := "Blinding Lights";
          search := "The Weeknd Blinding Lights" |}.
Proof. reflexivity. Qed.

Example search_with_artist_in_title :
  with_artist "Adele" "Adele - Hello"
  = Ok {| artist := "Adele"; title := "Adele - Hello";
          search := "Adele - Hello" |}.
Proof. reflexivity. Qed.

Example text_line_with_separator :
  text_line "Pink Floyd - Comfortably Numb"
  = Ok (Some {| artist := "Pink Floyd"; title := "Comfortably Numb";
                search := "Pink Floyd Comfortably Numb" |}).
Proof. reflexivity. Qed.

(** The rule on a title that cleans to nothing: the search string is what
    the rule gives, empty or the artist and a space. *)
Example search_of_empty_title :
  csv_row (exportify_row "[Intro]" "Unknown Artist")
  = Ok (Some {| artist := "Unknown Artist"; title := ""; search := "" |}) /\
  csv_row (exportify_row "(Remix)" "Drake")
  = Ok (Some {| artist := "Drake"; title := ""; search := "Drake " |}).
Proof. split; reflexivity. Qed.

Lemma assemble_nonempty (add : bool) (artist_name track_name : str) :
  track_name <> [] -> assemble add artist_name track_name <> [].
Proof.
  intros H. destruct add; [|exact H]. simpl. intros E.
  apply app_eq_nil in E as [_ E]. discriminate.
Qed.

Lemma with_artist_search_rule (raw_artist raw_title : str) (e : song) :
  with_artist raw_artist raw_title = Ok e ->
  search_rule raw_artist raw_title e.
Proof.
  intros W. split; [exact W|].
  destruct (with_artist_returns raw_artist raw_title)
    as (add & Hadd & Hno & W').
  rewrite W' in W. injection W as <-.
  exists add. cbn [title search entry].
  split; [exact Hadd|]. split; [reflexivity|]. split; [reflexivity|].
  split; [apply assemble_nonempty|exact Hno].
Qed.

(** What [parse_line] reads from the line is what [line_fields] names. *)
Lemma parse_line_fields (line : str) :
  parse_line line
  = with_artist (fst (line_fields line)) (snd (line_fields line)).
Proof.
  unfold line_fields.
  destruct (partition_at " - " line) as [[before rest]|] eqn:P.
  - apply (parse_line_separator _ _ _ P).
  - rewrite parse_line_bare by now rewrite contains_partition, P.
    reflexivity.
Qed.

(** A row that gives an entry gives the one that the shared branch builds
    from its two cells, stripped. *)
Lemma csv_row_fields (r : row) (raw_title raw_artist : str) (e : song) :
  get r "Track Name" (PyStr "") = PyStr raw_title ->
  get r "Artist Name(s)" (PyStr "") = PyStr raw_artist ->
  csv_row r = Ok (Some e) ->
  with_artist (strip raw_artist) (strip raw_title) = Ok e.
Proof.
  intros Ht Ha. unfold csv_row. rewrite Ht, Ha. cbn [cell_strip bind].
  destruct (truthy (strip raw_title)); cbn [negb]; [|discriminate].
  destruct (truthy (strip raw_artist)) eqn:Ta.
  - destruct (with_artist (strip raw_artist) (strip raw_title)) as [e'|];
      cbn [bind]; [|discriminate].
    now intros [= <-].
  - apply truthy_false in Ta. rewrite Ta. intros [= <-].
    apply with_artist_absent.
Qed.

(** C2, amended.  Every entry that an adapter appends is the value of one
    function, [with_artist], of the artist and the title read from its row
    or line: the two cells of a CSV row, stripped, or the text on either
    side of the first separator of a stripped line, with the empty artist
    when the line has no separator.  Its search string is what the rule of
    section 4.4 gives, it is not empty when the cleaned title is not empty,
    and the artist is put in front only when its lowercase form does not
    occur in the lowercase form of the cleaned title.  The three parts are
    the CSV row, the text line and the typed line. *)
Theorem search_of_appended :
  (forall (r : row) (raw_title raw_artist : str) (e : song),
      get r "Track Name" (PyStr "") = PyStr raw_title ->
      get r "Artist Name(s)" (PyStr "") = PyStr raw_artist ->
      csv_row r = Ok (Some e) ->
      search_rule (strip raw_artist) (strip raw_title) e)
  /\
  (forall (line : str) (e : song),
      text_line line = Ok (Some e) ->
      search_rule (fst (line_fields (strip line)))
        (snd (line_fields (strip line))) e)
  /\
  (forall (typed : str) (e : song),
      stops (strip typed) = false ->
      parse_line (strip typed) = Ok e ->
      search_rule (fst (line_fields (strip typed)))
        (snd (line_fields (strip typed))) e).
Proof.
  split; [|split].
  - intros r raw_title raw_artist e Ht Ha H.
    apply with_artist_search_rule. now apply csv_row_fields with r.
  - intros line e H. apply text_line_inv in H.
    apply with_artist_search_rule. now rewrite <- parse_line_fields.
  - intros typed e _ H.
    apply with_artist_search_rule. now rewrite <- parse_line_fields.
Qed.

Lemma search_of_appended_witness :
  line_fields (strip "Pink Floyd - Comfortably Numb")
  = (of_literal "Pink Floyd", of_literal "Comfortably Numb") /\
  search_rule "Pink Floyd" "Comfortably Numb"
    {| artist := "Pink Floyd"; title := "Comfortably Numb";
       search := "Pink Floyd Comfortably Numb" |}.
Proof.
  split; [reflexivity|].
  apply (proj1 (proj2 search_of_appended)
           (of_literal "Pink Floyd - Comfortably Numb")).
  reflexivity.
Defined.

(** C2 as stated fails twice: a line of removable noise gives an entry with
    an empty search string, and a title that holds the artist twice goes
    into the search string as it is. *)
Lemma search_empty_or_repeating :
  text_line "[Intro]"
  = Ok (Some {| artist := "Unknown Artist"; title := ""; search := "" |}) /\
  text_line "Al - Al Al"
  = Ok (Some {| artist := "Al"; title := "Al Al"; search := "Al Al" |}) /\
  clean_artist (strip "Al") = "Al" /\
  occurrences "Al" "Al Al" = 2.
Proof. repeat split; reflexivity. Qed.

(** ** Bare titles and skipped lines *)

(** C8, amended.  A line that, once stripped, is not empty, is not a
    comment and has no separator gives an entry whose title and search
    string are [clean_title] of the line, stripped or not; the artist read
    from the line is empty, and the artist field of the entry is the
    sentinel.  A line without the separator has none once stripped
    ([contains_strip]). *)
Theorem bare_title_entry (line : str) :
  strip line <> [] ->
  startswith "#" (strip line) = false ->
  contains " - " (strip line) = false ->
  parse_line (strip line) = Ok (entry "" (clean_title line) (clean_title line))
  /\
  text_line line
  = Ok (Some {| artist := "Unknown Artist";
                title := clean_title line;
                search := clean_title line |}).
Proof.
  intros Hl Hc Hs.
  assert (P : parse_line (strip line)
              = Ok (entry "" (clean_title line) (clean_title line))).
  { rewrite parse_line_bare by exact Hs. now rewrite clean_title_strip. }
  split; [exact P|]. unfold text_line.
  apply truthy_true in Hl. rewrite Hl, Hc. cbn [negb orb].
  now rewrite P.
Qed.

Lemma bare_title_entry_witness :
  parse_line (strip "Bohemian Rhapsody")
  = Ok (entry "" (clean_title "Bohemian Rhapsody")
          (clean_title "Bohemian Rhapsody")) /\
  text_line "Bohemian Rhapsody"
  = Ok (Some {| artist := "Unknown Artist";
                title := clean_title "Bohemian Rhapsody";
                search := clean_title "Bohemian Rhapsody" |}).
Proof.
  apply bare_title_entry; [discriminate|reflexivity|reflexivity].
Defined.

(** C8 as stated fails on its own example: the entry for a bare title
    carries the sentinel, not the empty string, as its artist. *)
Lemma bare_title_has_sentinel :
  text_line "Bohemian Rhapsody"
  = Ok (Some {| artist := "Unknown Artist";
                title := "Bohemian Rhapsody";
                search := "Bohemian Rhapsody" |}).
Proof. reflexivity. Qed.

Lemma or_else_nonempty (a b : str) : b <> [] -> or_else a b <> [].
Proof.
  intros Hb. unfold or_else. destruct (truthy a) eqn:T; [|exact Hb].
  now apply truthy_true.
Qed.

(** C9.  Every entry that an adapter appends, and so every entry of a list
    that an adapter returns, has a non-empty artist field: it is the
    cleaned artist when there is one, and the sentinel when the artist,
    cleaned or absent, is the empty string. *)
Theorem artist_field_never_empty :
  (forall e, appended e -> named e) /\
  (forall songs, returns songs -> Forall named songs).
Proof.
  assert (H : forall e, appended e -> named e).
  { intros e H. apply appended_inv in H as (a & t & W).
    destruct (with_artist_returns a t) as (add & _ & _ & W').
    rewrite W' in W. injection W as <-. unfold named. cbn [artist entry].
    split; [apply or_else_nonempty; discriminate|].
    exists a, t. split; [exact W'|]. unfold or_else. split.
    - now intros ->.
    - intros Hn. apply truthy_true in Hn. now rewrite Hn. }
  split; [exact H|].
  intros songs Hr. apply returns_appended in Hr.
  eapply Forall_impl; [|exact Hr]. exact H.
Qed.

Lemma artist_field_never_empty_witness :
  Forall named
    [ {| artist := "Unknown Artist"; title := "Bohemian Rhapsody";
         search := "Bohemian Rhapsody" |} ].
Proof.
  apply (proj2 artist_field_never_empty).
  apply returns_text
    with (text_file := Content [of_literal "Bohemian Rhapsody"]) (out := []).
  reflexivity.
Defined.

Lemma text_loop_line_num (lines : list str) :
  forall n m songs out,
    text_loop n lines songs out = text_loop m lines songs out.
Proof.
  induction lines as [|l lines IH]; intros n m songs out; [reflexivity|].
  simpl. destruct (text_line l) as [[e|]|]; [apply IH|apply IH|reflexivity].
Qed.

Lemma text_loop_skip (before : list str) (line : str) (after : list str) :
  text_line line = Ok None ->
  forall n songs out,
    text_loop n (before ++ line :: after) songs out
    = text_loop n (before ++ after) songs out.
Proof.
  intros Hskip. induction before as [|l before IH]; intros n songs out.
  - simpl. rewrite Hskip. apply text_loop_line_num.
  - simpl. destruct (text_line l) as [[e|]|]; [apply IH|apply IH|reflexivity].
Qed.

(** C10.  A line of the text file that is empty once stripped, or whose
    first character is then [#], gives no entry and no message, and the
    adapter ends as it does on the file without that line. *)
Theorem blank_and_comment_lines_skipped
    (before : list str) (line : str) (after : list str) :
  strip line = [] \/ startswith "#" (strip line) = true ->
  text_line line = Ok None /\
  process_text_list (Content (before ++ line :: after))
  = process_text_list (Content (before ++ after)).
Proof.
  intros H.
  assert (Hskip : text_line line = Ok None).
  { unfold text_line. destruct H as [-> | ->]; [reflexivity|].
    now rewrite orb_true_r. }
  split; [exact Hskip|]. simpl. now apply text_loop_skip.
Qed.

Lemma blank_and_comment_lines_skipped_witness :
  text_line "# my playlist" = Ok None /\
  process_text_list
    (Content ([of_literal "Adele - Hello"]
              ++ of_literal "# my playlist"
              :: [of_literal "Bohemian Rhapsody"]))
  = process_text_list
      (Content ([of_literal "Adele - Hello"]
                ++ [of_literal "Bohemian Rhapsody"])).
Proof.
  apply blank_and_comment_lines_skipped. right. reflexivity.
Defined.

(** ** Search directives *)

Lemma fold_left_append {A B : Type} (f : A -> B) (l : list A) :
  forall acc, fold_left (fun acc x => acc ++ [f x]) l acc = acc ++ map f l.
Proof.
  induction l as [|x l IH]; intros acc; simpl.
  - now rewrite app_nil_r.
  - rewrite IH, <- app_assoc. reflexivity.
Qed.

(** C7.  [generate_youtube_searches] gives one directive for each song, in
    the order of the songs: [ytsearch1:], the search value of the song, and
    [ official audio] for the mode [best], nothing for [fast] and
    [ official] for every other mode. *)
Theorem generate_youtube_searches_directives
    (songs : list song) (search_quality : str) :
  generate_youtube_searches songs search_quality
  = map (fun s => directive search_quality (search s)) songs /\
  length (generate_youtube_searches songs search_quality) = length songs.
Proof.
  assert (E : generate_youtube_searches songs search_quality
              = map (fun s => directive search_quality (search s)) songs).
  { unfold generate_youtube_searches. rewrite fold_left_append.
    rewrite app_nil_l. apply map_ext. intros s. unfold directive.
    destruct (str_eqb search_quality "best"); [reflexivity|].
    destruct (str_eqb search_quality "fast"); [|reflexivity].
    change (of_literal "") with (@nil ascii). now rewrite app_nil_r. }
  split; [exact E|]. rewrite E. apply length_map.
Qed.

(** * Further properties *)

(** ** [clean_artist] *)

Lemma greedy_then_char (p q : ascii -> bool) (r : regex) (t rest : str) :
  match_here (StarGreedy p :: Char q :: r) t = Some rest ->
  existsb q t = true.
Proof.
  induction t as [|c t IH]; rewrite match_greedy_unfold.
  - discriminate.
  - assert (Hc : match_here (Char q :: r) (c :: t) = Some rest ->
                 existsb q (c :: t) = true).
    { cbn [match_here existsb]. destruct (q c); [reflexivity|discriminate]. }
    destruct (p c); [|exact Hc].
    destruct (match_here (StarGreedy p :: Char q :: r) t) as [u|] eqn:E;
      [|exact Hc].
    intros [= <-]. cbn [existsb]. rewrite IH by reflexivity.
    apply orb_true_r.
Qed.

Lemma re_search_separator (s : str) :
  has_separator s = false -> re_search pat_separator s = false.
Proof.
  unfold has_separator. induction s as [|c s IH]; intros H.
  - reflexivity.
  - cbn [re_search].
    destruct (match_here pat_separator (c :: s)) as [rest|] eqn:E.
    + apply greedy_then_char in E. congruence.
    + apply IH. cbn [existsb] in H. now apply orb_false_elim in H.
Qed.

Lemma drop_prefix_i_startswith (p s rest : str) :
  drop_prefix_i p s = Some rest -> startswith (lower p) (lower s) = true.
Proof.
  revert s. induction p as [|a p IH]; intros s; [reflexivity|].
  destruct s as [|b s]; [discriminate|].
  cbn [drop_prefix_i]. unfold lower. cbn [map startswith]. fold (lower p).
  fold (lower s). rewrite (Ascii.eqb_sym (lower_char a)).
  destruct (Ascii.eqb (lower_char b) (lower_char a)); [|discriminate].
  apply IH.
Qed.

Lemma startswith_drop_prefix_i (p s : str) :
  startswith (lower p) (lower s) = true ->
  exists rest, drop_prefix_i p s = Some rest.
Proof.
  revert s. induction p as [|a p IH]; intros s; [now exists s|].
  destruct s as [|b s]; [discriminate|].
  unfold lower. cbn [map startswith drop_prefix_i]. fold (lower p).
  fold (lower s). rewrite (Ascii.eqb_sym (lower_char a)).
  destruct (Ascii.eqb (lower_char b) (lower_char a)); [|discriminate].
  apply IH.
Qed.

Lemma mentions_head (tag t : str) :
  startswith (lower tag) (lower t) = true -> mentions tag t = true.
Proof.
  intros H. unfold mentions. destruct (lower t); cbn [contains]; now rewrite H.
Qed.

Lemma mentions_cons (tag : str) (c : ascii) (t : str) :
  mentions tag t = true -> mentions tag (c :: t) = true.
Proof.
  unfold mentions, lower. cbn [map contains]. intros ->. apply orb_true_r.
Qed.

Lemma match_featuring_mentions (tag t rest : str) :
  match_here (pat_featuring tag) t = Some rest -> mentions tag t = true.
Proof.
  unfold pat_featuring.
  assert (Hhere : forall u,
             match_here (lits_i tag ++ [StarGreedy dot; EndAnchor]) u
             = Some rest -> mentions tag u = true).
  { intros u. rewrite match_lits_i.
    destruct (drop_prefix_i tag u) as [v|] eqn:D; [|discriminate].
    intros _. apply mentions_head. now apply drop_prefix_i_startswith with v. }
  induction t as [|c t IH]; rewrite match_greedy_unfold.
  - apply Hhere.
  - destruct (isspace c); [|apply Hhere].
    destruct (match_here
                (StarGreedy isspace
                 :: lits_i tag ++ [StarGreedy dot; EndAnchor]) t)
      as [u|] eqn:E; [|apply Hhere].
    intros [= <-]. apply mentions_cons. now apply IH.
Qed.

Lemma mentions_tail (tag : str) (c : ascii) (t : str) :
  mentions tag (c :: t) = false -> mentions tag t = false.
Proof.
  intros H. destruct (mentions tag t) eqn:E; [|reflexivity].
  apply (mentions_cons tag c) in E. congruence.
Qed.

Lemma re_search_featuring (tag s : str) :
  mentions tag s = false -> re_search (pat_featuring tag) s = false.
Proof.
  induction s as [|c s IH]; intros H; cbn [re_search].
  - destruct (match_here (pat_featuring tag) []) eqn:E; [|reflexivity].
    apply match_featuring_mentions in E. congruence.
  - destruct (match_here (pat_featuring tag) (c :: s)) eqn:E.
    + apply match_featuring_mentions in E. congruence.
    + apply IH. now apply mentions_tail with c.
Qed.

Lemma delimiter_free_parts (s : str) :
  delimiter_free s = true ->
  has_separator s = false /\ mentions "feat." s = false
  /\ mentions "ft." s = false.
Proof.
  unfold delimiter_free. intros H.
  apply andb_prop in H as [H H3]. apply andb_prop in H as [H1 H2].
  now rewrite negb_true_iff in H1, H2, H3.
Qed.

Lemma clean_artist_plain (artist : str) :
  delimiter_free artist = true -> clean_artist artist = strip artist.
Proof.
  intros H. apply delimiter_free_parts in H as (H1 & H2 & H3).
  unfold clean_artist.
  rewrite (re_sub_no_match pat_separator) by now apply re_search_separator.
  rewrite (re_sub_no_match (pat_featuring "feat."))
    by now apply re_search_featuring.
  rewrite (re_sub_no_match (pat_featuring "ft."))
    by now apply re_search_featuring.
  reflexivity.
Qed.

(** X1.  An artist in which no comma, no ampersand and, in any letter
    case, neither [feat.] nor [ft.] occurs is only stripped by
    [clean_artist]. *)
Theorem clean_artist_without_delimiters (artist : str) :
  delimiter_free artist = true -> clean_artist artist = strip artist.
Proof. exact (clean_artist_plain artist). Qed.

Lemma clean_artist_without_delimiters_witness :
  delimiter_free "  Pink Floyd " = true /\
  clean_artist "  Pink Floyd " = strip "  Pink Floyd ".
Proof.
  split; [reflexivity|].
  apply clean_artist_without_delimiters. reflexivity.
Defined.

Lemma one_line_cons (c : ascii) (s : str) :
  one_line (c :: s) = true <-> dot c = true /\ one_line s = true.
Proof. unfold one_line, dot. cbn [forallb]. apply andb_true_iff. Qed.

Lemma one_line_app (a b : str) :
  one_line (a ++ b) = true <-> one_line a = true /\ one_line b = true.
Proof. unfold one_line. rewrite forallb_app. apply andb_true_iff. Qed.

(** What a match leaves is the end of the text it was given. *)
Lemma match_here_suffix (r : regex) :
  forall s rest, match_here r s = Some rest -> exists pre, s = pre ++ rest.
Proof.
  induction r as [|n r IH]; intros s rest.
  - intros [= <-]. now exists [].
  - destruct n as [p|p|p|].
    + destruct s as [|c s]; cbn [match_here]; [discriminate|].
      destruct (p c); [|discriminate].
      intros H. apply IH in H as [pre ->]. now exists (c :: pre).
    + induction s as [|c s IHs]; rewrite match_lazy_unfold.
      * destruct (match_here r []) eqn:E; [|discriminate].
        intros [= <-]. now apply IH.
      * destruct (match_here r (c :: s)) eqn:E.
        -- intros [= <-]. now apply IH.
        -- destruct (p c); [|discriminate].
           intros H. apply IHs in H as [pre ->]. now exists (c :: pre).
    + induction s as [|c s IHs]; rewrite match_greedy_unfold.
      * apply IH.
      * destruct (p c); [|apply IH].
        destruct (match_here (StarGreedy p :: r) s) eqn:E; [|apply IH].
        intros [= <-]. destruct (IHs eq_refl) as [pre ->].
        now exists (c :: pre).
    + cbn [match_here]. destruct (at_end s); [|discriminate]. apply IH.
Qed.

(** A pattern that ends with [$] leaves nothing, or the line break that
    ends the text. *)
Lemma match_anchored (r : regex) :
  forall s rest,
    match_here (r ++ [EndAnchor]) s = Some rest -> at_end rest = true.
Proof.
  induction r as [|n r IH]; intros s rest.
  - cbn [app match_here]. destruct (at_end s) eqn:E; [|discriminate].
    now intros [= <-].
  - change ((n :: r) ++ [EndAnchor]) with (n :: (r ++ [EndAnchor])).
    destruct n as [p|p|p|].
    + destruct s as [|c s]; cbn [match_here]; [discriminate|].
      destruct (p c); [|discriminate]. apply IH.
    + induction s as [|c s IHs]; rewrite match_lazy_unfold.
      * destruct (match_here (r ++ [EndAnchor]) []) eqn:E; [|discriminate].
        intros [= <-]. now apply IH in E.
      * destruct (match_here (r ++ [EndAnchor]) (c :: s)) eqn:E.
        -- intros [= <-]. now apply IH in E.
        -- destruct (p c); [|discriminate]. exact IHs.
    + induction s as [|c s IHs]; rewrite match_greedy_unfold.
      * apply IH.
      * destruct (p c); [|apply IH].
        destruct (match_here (StarGreedy p :: r ++ [EndAnchor]) s) eqn:E;
          [|apply IH].
        intros [= <-]. now apply IHs.
    + cbn [match_here]. destruct (at_end s); [|discriminate]. apply IH.
Qed.

Lemma match_anchored_one_line (r : regex) (s rest : str) :
  one_line s = true ->
  match_here (r ++ [EndAnchor]) s = Some rest -> rest = [].
Proof.
  intros Hs H. pose proof (match_anchored _ _ _ H) as He.
  apply match_here_suffix in H as [pre ->].
  apply one_line_app in Hs as [_ Hr].
  destruct rest as [|c [|d rest]]; [reflexivity| |discriminate].
  simpl in He. apply Ascii.eqb_eq in He. subst c. discriminate.
Qed.

Lemma match_separator_one_line (s rest : str) :
  one_line s = true -> match_here pat_separator s = Some rest -> rest = [].
Proof.
  apply (match_anchored_one_line
           [StarGreedy isspace; Char (one_of ",&"); StarGreedy isspace;
            StarGreedy dot]).
Qed.

Lemma match_featuring_one_line (tag s rest : str) :
  one_line s = true ->
  match_here (pat_featuring tag) s = Some rest -> rest = [].
Proof.
  unfold pat_featuring.
  replace (StarGreedy isspace :: lits_i tag ++ [StarGreedy dot; EndAnchor])
    with ((StarGreedy isspace :: lits_i tag ++ [StarGreedy dot])
          ++ [EndAnchor]).
  - apply match_anchored_one_line.
  - cbn [app]. now rewrite <- app_assoc.
Qed.

Lemma match_rest_of_line (u : str) :
  one_line u = true -> match_here [StarGreedy dot; EndAnchor] u = Some [].
Proof.
  induction u as [|c u IH]; [reflexivity|].
  intros H. apply one_line_cons in H as [Hc Hu].
  rewrite match_greedy_unfold, Hc. now rewrite (IH Hu).
Qed.

Lemma match_space_rest_of_line (u : str) :
  one_line u = true ->
  match_here [StarGreedy isspace; StarGreedy dot; EndAnchor] u = Some [].
Proof.
  induction u as [|c u IH]; [reflexivity|].
  intros H. pose proof H as Hcu. apply one_line_cons in H as [Hc Hu].
  rewrite match_greedy_unfold. destruct (isspace c).
  - now rewrite (IH Hu).
  - now apply match_rest_of_line.
Qed.

Lemma one_of_not_space (c : ascii) :
  one_of ",&" c = true -> isspace c = false.
Proof.
  unfold one_of. cbn [of_literal list_ascii_of_string existsb].
  intros H. apply orb_prop in H as [H|H].
  - apply Ascii.eqb_eq in H. now subst c.
  - apply orb_prop in H as [H|H]; [|discriminate].
    apply Ascii.eqb_eq in H. now subst c.
Qed.

(** On one line, a comma or an ampersand is always a match. *)
Lemma found_separator (c : ascii) (s : str) :
  one_line (c :: s) = true -> one_of ",&" c = true ->
  found (match_here pat_separator) (c :: s) = true.
Proof.
  intros H Hc. apply one_line_cons in H as [_ Hs].
  unfold found, pat_separator. rewrite match_greedy_unfold.
  rewrite (one_of_not_space c Hc). cbn [match_here]. rewrite Hc.
  now rewrite match_space_rest_of_line.
Qed.

Lemma drop_prefix_i_head_not_space (tag : str) (c : ascii) (t rest : str) :
  tag <> [] -> spaceless tag = true ->
  drop_prefix_i tag (c :: t) = Some rest -> isspace c = false.
Proof.
  destruct tag as [|a tag]; [congruence|]. intros _ Hs.
  unfold spaceless in Hs. cbn [forallb] in Hs.
  apply andb_prop in Hs as [Ha _]. apply negb_true_iff in Ha.
  cbn [drop_prefix_i]. destruct (isspace c) eqn:C; [|reflexivity].
  now rewrite (lower_char_space_free a c Ha C).
Qed.

(** On one line, the tag at the start of the text is always a match. *)
Lemma found_featuring (tag t : str) :
  tag <> [] -> spaceless tag = true -> one_line t = true ->
  startswith (lower tag) (lower t) = true ->
  found (match_here (pat_featuring tag)) t = true.
Proof.
  intros Hn Hs Ht H. apply startswith_drop_prefix_i in H as [v D].
  assert (Hv : one_line v = true).
  { apply drop_prefix_i_spec in D as (k & -> & _).
    now apply one_line_app in Ht. }
  unfold found, pat_featuring. destruct t as [|c t].
  - destruct tag; [congruence|discriminate].
  - rewrite match_greedy_unfold.
    rewrite (drop_prefix_i_head_not_space tag c t v Hn Hs D).
    rewrite match_lits_i, D. cbn [and_then].
    now rewrite match_rest_of_line.
Qed.

Lemma sub_all_skipped (m : str -> option str) (repl : str) (s : str) :
  forall k, length s <= k -> sub_from m repl k s = [].
Proof.
  induction s as [|c s IH]; intros k Hk; [reflexivity|].
  destruct k as [|k]; [simpl in Hk; lia|].
  cbn [sub_from]. apply IH. simpl in Hk. lia.
Qed.

(** A pattern whose matches run to the end of the text cuts the text at
    its first match. *)
Lemma sub_cut (m : str -> option str) (s : str) :
  (forall t rest, one_line t = true -> m t = Some rest -> rest = []) ->
  one_line s = true ->
  sub_from m "" 0 s = cut (found m) s.
Proof.
  intros Hm. induction s as [|c s IH]; intros Hs; [reflexivity|].
  cbn [sub_from cut]. unfold found at 1.
  destruct (m (c :: s)) as [rest|] eqn:E.
  - rewrite (Hm _ _ Hs E).
    change (length (c :: s) - length (@nil ascii)) with (S (length s)).
    cbn iota. now rewrite sub_all_skipped.
  - f_equal. apply IH. now apply one_line_cons in Hs.
Qed.

Lemma cut_prefix (stop : str -> bool) (s : str) :
  exists r, s = cut stop s ++ r /\ (r = [] \/ stop r = true).
Proof.
  induction s as [|c s (r & E & H)].
  - exists []. split; [reflexivity|now left].
  - cbn [cut]. destruct (stop (c :: s)) eqn:S.
    + exists (c :: s). split; [reflexivity|now right].
    + exists r. split; [cbn [app]; now f_equal|exact H].
Qed.

Lemma cut_one_line (stop : str -> bool) (s : str) :
  one_line s = true -> one_line (cut stop s) = true.
Proof.
  intros H. destruct (cut_prefix stop s) as (r & E & _).
  rewrite E in H. now apply one_line_app in H.
Qed.

Lemma cut_separator_free (s : str) :
  one_line s = true ->
  has_separator (cut (found (match_here pat_separator)) s) = false.
Proof.
  unfold has_separator. induction s as [|c s IH]; intros H; [reflexivity|].
  cbn [cut].
  destruct (found (match_here pat_separator) (c :: s)) eqn:F; [reflexivity|].
  cbn [existsb]. rewrite IH by now apply one_line_cons in H.
  destruct (one_of ",&" c) eqn:C; [|reflexivity].
  now rewrite (found_separator c s H C) in F.
Qed.

Lemma lower_app (a b : str) : lower (a ++ b) = lower a ++ lower b.
Proof. apply map_app. Qed.

Lemma cut_tag_free (tag s : str) :
  tag <> [] -> spaceless tag = true -> one_line s = true ->
  mentions tag (cut (found (match_here (pat_featuring tag))) s) = false.
Proof.
  intros Hn Hs.
  assert (Hnil : mentions tag [] = false).
  { unfold mentions. cbn [lower map contains].
    destruct tag; [congruence|reflexivity]. }
  induction s as [|c s IH]; intros H; [exact Hnil|].
  cbn [cut].
  destruct (found (match_here (pat_featuring tag)) (c :: s)) eqn:F;
    [exact Hnil|].
  specialize (IH (proj2 (proj1 (one_line_cons c s) H))).
  destruct (cut_prefix (found (match_here (pat_featuring tag))) s)
    as (r & E & _).
  remember (cut (found (match_here (pat_featuring tag))) s) as p eqn:Hp.
  unfold mentions in *.
  change (lower (c :: p)) with (lower_char c :: lower p).
  cbn [contains]. rewrite IH, orb_false_r.
  destruct (startswith (lower tag) (lower_char c :: lower p)) eqn:S;
    [|reflexivity].
  apply (startswith_app _ _ (lower r)) in S.
  assert (S' : startswith (lower tag) (lower (c :: s)) = true).
  { rewrite E. change (lower (c :: p ++ r))
      with (lower_char c :: lower (p ++ r)).
    rewrite lower_app. exact S. }
  now rewrite (found_featuring tag (c :: s) Hn Hs H S') in F.
Qed.

(** On one line, [clean_artist] is three cuts and a strip. *)
Lemma clean_artist_cuts (artist : str) :
  one_line artist = true ->
  clean_artist artist
  = strip
      (cut (found (match_here (pat_featuring "ft.")))
         (cut (found (match_here (pat_featuring "feat.")))
            (cut (found (match_here pat_separator)) artist))).
Proof.
  intros H. unfold clean_artist, re_sub.
  rewrite (sub_cut (match_here pat_separator))
    by first [assumption | apply match_separator_one_line].
  rewrite (sub_cut (match_here (pat_featuring "feat.")))
    by first [now apply cut_one_line
             | intros t rest; apply match_featuring_one_line].
  rewrite (sub_cut (match_here (pat_featuring "ft.")))
    by first [now repeat apply cut_one_line
             | intros t rest; apply match_featuring_one_line].
  reflexivity.
Qed.

Lemma has_separator_app (a b : str) :
  has_separator (a ++ b) = has_separator a || has_separator b.
Proof. apply existsb_app. Qed.

Lemma mentions_infix (tag a x b : str) :
  mentions tag x = true -> mentions tag (a ++ x ++ b) = true.
Proof.
  unfold mentions. intros H. rewrite !lower_app.
  now apply contains_app_l, contains_app_r.
Qed.

Lemma mentions_prefix (tag x b : str) :
  mentions tag (x ++ b) = false -> mentions tag x = false.
Proof.
  intros H. destruct (mentions tag x) eqn:E; [|reflexivity].
  apply (mentions_infix tag [] x b) in E. cbn [app] in E. congruence.
Qed.

Lemma lstrip_lstrip (s : str) : lstrip (lstrip s) = lstrip s.
Proof. apply lstrip_fixed, lstrip_unpadded. Qed.

Lemma lstrip_app_nonblank (p y : str) :
  blank p = false -> lstrip (p ++ y) = lstrip p ++ y.
Proof.
  induction p as [|c p IH]; [discriminate|].
  intros H. cbn [app lstrip]. destruct (isspace c) eqn:C; [|reflexivity].
  apply IH. unfold blank in *. cbn [forallb] in H. now rewrite C in H.
Qed.

Lemma rstrip_app_fixed (x v : str) :
  rstrip v = v -> v <> [] -> rstrip (x ++ v) = x ++ v.
Proof.
  intros Hv Hn. induction x as [|c x IH]; [exact Hv|].
  cbn [app rstrip]. rewrite IH.
  destruct (x ++ v) eqn:E; [|reflexivity].
  apply app_eq_nil in E as [_ E]. congruence.
Qed.

Lemma match_separator_begins (t rest : str) :
  match_here pat_separator t = Some rest -> begins_with_separator t = true.
Proof.
  unfold pat_separator, begins_with_separator.
  induction t as [|c t IH]; rewrite match_greedy_unfold.
  - discriminate.
  - assert (Hc : match_here
                   [Char (one_of ",&"); StarGreedy isspace; StarGreedy dot;
                    EndAnchor] (c :: t) = Some rest ->
                 match lstrip (c :: t) with
                 | d :: _ => one_of ",&" d
                 | [] => false
                 end = true).
    { cbn [match_here]. destruct (one_of ",&" c) eqn:C; [|discriminate].
      intros _. cbn [lstrip]. now rewrite (one_of_not_space c C). }
    destruct (isspace c) eqn:S; [|exact Hc].
    destruct (match_here
                [StarGreedy isspace; Char (one_of ",&"); StarGreedy isspace;
                 StarGreedy dot; EndAnchor] t) eqn:E; [|exact Hc].
    intros [= <-]. cbn [lstrip]. rewrite S. now apply IH.
Qed.

Lemma match_featuring_begins (tag t rest : str) :
  tag <> [] -> spaceless tag = true ->
  match_here (pat_featuring tag) t = Some rest -> begins_with tag t = true.
Proof.
  intros Hn Hs. unfold pat_featuring, begins_with.
  assert (Hhere : forall u,
             match_here (lits_i tag ++ [StarGreedy dot; EndAnchor]) u
             = Some rest ->
             match drop_prefix_i tag (lstrip u) with
             | Some _ => true
             | None => false
             end = true).
  { intros u. rewrite match_lits_i.
    destruct (drop_prefix_i tag u) as [v|] eqn:D; [|discriminate].
    intros _. destruct u as [|c u].
    - cbn [lstrip]. now rewrite D.
    - cbn [lstrip].
      rewrite (drop_prefix_i_head_not_space tag c u v Hn Hs D).
      now rewrite D. }
  induction t as [|c t IH]; rewrite match_greedy_unfold.
  - apply Hhere.
  - destruct (isspace c) eqn:S; [|apply Hhere].
    destruct (match_here
                (StarGreedy isspace
                 :: lits_i tag ++ [StarGreedy dot; EndAnchor]) t)
      as [u|] eqn:E; [|apply Hhere].
    intros [= <-]. cbn [lstrip]. rewrite S. now apply IH.
Qed.

Lemma begins_with_delimiter_lstrip (r : str) :
  begins_with_delimiter (lstrip r) = begins_with_delimiter r.
Proof.
  unfold begins_with_delimiter, begins_with_separator, begins_with.
  now rewrite lstrip_lstrip.
Qed.

Lemma begins_with_delimiter_blank_app (w x : str) :
  blank w = true ->
  begins_with_delimiter (w ++ x) = begins_with_delimiter x.
Proof.
  intros H. rewrite <- begins_with_delimiter_lstrip.
  rewrite lstrip_blank_app by exact H.
  apply begins_with_delimiter_lstrip.
Qed.

Lemma begins_with_delimiter_nonblank (r : str) :
  begins_with_delimiter r = true -> lstrip r <> [].
Proof.
  unfold begins_with_delimiter, begins_with_separator, begins_with.
  intros H E. rewrite E in H. discriminate.
Qed.

Lemma begins_with_delimiter_app (r x : str) :
  begins_with_delimiter r = true -> begins_with_delimiter (r ++ x) = true.
Proof.
  intros H. pose proof (begins_with_delimiter_nonblank r H) as Hn.
  rewrite <- begins_with_delimiter_lstrip in H |- *.
  rewrite lstrip_app_nonblank.
  2:{ destruct (blank r) eqn:B; [|reflexivity].
      now apply lstrip_blank in B. }
  pose proof (lstrip_unpadded r) as Hu.
  destruct (lstrip r) as [|d u]; [congruence|]. simpl in Hu.
  unfold begins_with_delimiter, begins_with_separator, begins_with in *.
  cbn [app lstrip] in *. rewrite Hu in *.
  apply orb_prop in H as [H|H]; [apply orb_prop in H as [H|H]|].
  - now rewrite H.
  - destruct (drop_prefix_i "feat." (d :: u)) as [v|] eqn:D; [|discriminate].
    apply drop_prefix_i_spec in D as (k & E & Hk).
    assert (D' : drop_prefix_i "feat." (d :: u ++ x) = Some (v ++ x)).
    { apply drop_prefix_i_spec. exists k. split; [|exact Hk].
      change (d :: u ++ x) with ((d :: u) ++ x).
      now rewrite E, app_assoc. }
    rewrite D'. apply orb_true_iff. left. apply orb_true_r.
  - destruct (drop_prefix_i "ft." (d :: u)) as [v|] eqn:D; [|discriminate].
    apply drop_prefix_i_spec in D as (k & E & Hk).
    assert (D' : drop_prefix_i "ft." (d :: u ++ x) = Some (v ++ x)).
    { apply drop_prefix_i_spec. exists k. split; [|exact Hk].
      change (d :: u ++ x) with ((d :: u) ++ x).
      now rewrite E, app_assoc. }
    rewrite D'. apply orb_true_r.
Qed.

Lemma begins_with_delimiter_rstrip (u : str) :
  unpadded_left u -> begins_with_delimiter u = true ->
  begins_with_delimiter (rstrip u) = true.
Proof.
  intros Hu H. destruct u as [|d u]; [discriminate|]. simpl in Hu.
  destruct (rstrip_split (d :: u)) as (w & Hw & E).
  destruct (rstrip_keeps_head d u Hu) as [r R]. rewrite R in *.
  unfold begins_with_delimiter, begins_with_separator, begins_with in *.
  cbn [lstrip] in *. rewrite Hu in *.
  apply orb_prop in H as [H|H]; [apply orb_prop in H as [H|H]|].
  - now rewrite H.
  - rewrite E in H.
    rewrite (drop_prefix_i_pad "feat." (d :: r) w eq_refl Hw) in H.
    destruct (drop_prefix_i "feat." (d :: r)); [|discriminate].
    apply orb_true_iff. left. apply orb_true_r.
  - rewrite E in H.
    rewrite (drop_prefix_i_pad "ft." (d :: r) w eq_refl Hw) in H.
    destruct (drop_prefix_i "ft." (d :: r)); [|discriminate].
    apply orb_true_r.
Qed.

(** Stripping the part before a delimiter gives the start of the stripped
    whole, and what follows still begins with the delimiter. *)
Lemma strip_cut (p r : str) :
  r = [] \/ begins_with_delimiter r = true ->
  exists rest,
    strip (p ++ r) = strip p ++ rest /\
    (rest = [] \/ begins_with_delimiter rest = true).
Proof.
  intros [-> | D].
  - exists []. rewrite !app_nil_r. auto.
  - pose proof (begins_with_delimiter_nonblank r D) as Hn.
    rewrite <- begins_with_delimiter_lstrip in D.
    pose proof (lstrip_unpadded r) as Hu.
    destruct (lstrip_split r) as (wr & Hwr & Er).
    remember (lstrip r) as u eqn:Eu. clear Eu.
    pose proof (begins_with_delimiter_rstrip u Hu D) as Dv.
    destruct (rstrip_split u) as (w' & Hw' & Ev).
    assert (Hv : rstrip u <> []).
    { destruct u as [|d u]; [congruence|]. simpl in Hu.
      destruct (rstrip_keeps_head d u Hu) as [x ->]. discriminate. }
    pose proof (rstrip_fixed u) as Hfix.
    remember (rstrip u) as v eqn:Ev'. clear Ev'. subst u r.
    destruct (blank p) eqn:B.
    + exists v. split; [|now right]. unfold strip.
      rewrite lstrip_blank_app by exact B.
      apply lstrip_blank in B. rewrite B.
      rewrite lstrip_blank_app by exact Hwr.
      rewrite lstrip_fixed by exact Hu.
      now rewrite rstrip_blank_app.
    + destruct (rstrip_split (lstrip p)) as (w2 & Hw2 & Eq).
      exists (w2 ++ wr ++ v). split.
      * unfold strip. rewrite lstrip_app_nonblank by exact B.
        rewrite Eq at 1.
        replace ((rstrip (lstrip p) ++ w2) ++ wr ++ v ++ w')
          with (((rstrip (lstrip p) ++ w2 ++ wr) ++ v) ++ w')
          by now rewrite <- !app_assoc.
        rewrite rstrip_blank_app by exact Hw'.
        rewrite rstrip_app_fixed by assumption.
        now rewrite <- !app_assoc.
      * right. now rewrite !begins_with_delimiter_blank_app.
Qed.

Lemma found_separator_begins (r : str) :
  found (match_here pat_separator) r = true ->
  begins_with_delimiter r = true.
Proof.
  unfold found. destruct (match_here pat_separator r) eqn:E; [|discriminate].
  intros _. unfold begins_with_delimiter.
  now rewrite (match_separator_begins _ _ E).
Qed.

Lemma found_feat_begins (r : str) :
  found (match_here (pat_featuring "feat.")) r = true ->
  begins_with_delimiter r = true.
Proof.
  unfold found.
  destruct (match_here (pat_featuring "feat.") r) eqn:E; [|discriminate].
  intros _. unfold begins_with_delimiter.
  rewrite (match_featuring_begins "feat." _ _ ltac:(discriminate) eq_refl E).
  now rewrite orb_true_r.
Qed.

Lemma found_ft_begins (r : str) :
  found (match_here (pat_featuring "ft.")) r = true ->
  begins_with_delimiter r = true.
Proof.
  unfold found.
  destruct (match_here (pat_featuring "ft.") r) eqn:E; [|discriminate].
  intros _. unfold begins_with_delimiter.
  rewrite (match_featuring_begins "ft." _ _ ltac:(discriminate) eq_refl E).
  now rewrite orb_true_r.
Qed.

Lemma has_separator_infix (a x b : str) :
  has_separator (a ++ x ++ b) = false -> has_separator x = false.
Proof.
  rewrite !has_separator_app. intros H.
  apply orb_false_elim in H as [_ H]. now apply orb_false_elim in H.
Qed.

Lemma mentions_infix_free (tag a x b : str) :
  mentions tag (a ++ x ++ b) = false -> mentions tag x = false.
Proof.
  intros H. destruct (mentions tag x) eqn:E; [|reflexivity].
  apply (mentions_infix tag a x b) in E. congruence.
Qed.

(** On one line, what [clean_artist] returns holds no delimiter. *)
Lemma clean_artist_free (artist : str) :
  one_line artist = true -> delimiter_free (clean_artist artist) = true.
Proof.
  intros H. rewrite clean_artist_cuts by exact H.
  set (p1 := cut (found (match_here pat_separator)) artist).
  set (p2 := cut (found (match_here (pat_featuring "feat."))) p1).
  set (p3 := cut (found (match_here (pat_featuring "ft."))) p2).
  assert (H1 : one_line p1 = true) by now apply cut_one_line.
  assert (H2 : one_line p2 = true) by now apply cut_one_line.
  pose proof (cut_separator_free artist H) as S1. fold p1 in S1.
  pose proof (cut_tag_free "feat." p1 ltac:(discriminate) eq_refl H1) as F2.
  fold p2 in F2.
  pose proof (cut_tag_free "ft." p2 ltac:(discriminate) eq_refl H2) as F3.
  fold p3 in F3.
  destruct (cut_prefix (found (match_here (pat_featuring "feat."))) p1)
    as (r2 & E2 & _). fold p2 in E2.
  destruct (cut_prefix (found (match_here (pat_featuring "ft."))) p2)
    as (r3 & E3 & _). fold p3 in E3.
  destruct (strip_split p3) as (w1 & w2 & _ & _ & E).
  assert (S3 : has_separator p3 = false).
  { rewrite E2, has_separator_app in S1. apply orb_false_elim in S1 as [S2 _].
    rewrite E3, has_separator_app in S2. now apply orb_false_elim in S2. }
  assert (F3' : mentions "feat." p3 = false).
  { rewrite E3 in F2. now apply mentions_prefix in F2. }
  unfold delimiter_free.
  rewrite E in S3, F3, F3'.
  rewrite (has_separator_infix _ _ _ S3).
  rewrite (mentions_infix_free _ _ _ _ F3').
  now rewrite (mentions_infix_free _ _ _ _ F3).
Qed.

(** X2.  On an artist without a line break, [clean_artist] returns the
    part of the stripped artist that stands before its first delimiter: the
    result is the start of the stripped artist, what it leaves out is
    nothing or begins, after whitespace, with a comma, an ampersand,
    [feat.] or [ft.] in any letter case, and the result itself holds no
    delimiter and no whitespace at either end. *)
Theorem clean_artist_cuts_at_first_delimiter (artist : str) :
  one_line artist = true ->
  exists rest,
    strip artist = clean_artist artist ++ rest /\
    (rest = [] \/ begins_with_delimiter rest = true) /\
    delimiter_free (clean_artist artist) = true /\
    trimmed (clean_artist artist).
Proof.
  intros H. pose proof (clean_artist_free artist H) as Hfree.
  rewrite clean_artist_cuts in * by exact H.
  set (p1 := cut (found (match_here pat_separator)) artist) in *.
  set (p2 := cut (found (match_here (pat_featuring "feat."))) p1) in *.
  set (p3 := cut (found (match_here (pat_featuring "ft."))) p2) in *.
  destruct (cut_prefix (found (match_here pat_separator)) artist)
    as (r1 & E1 & D1). fold p1 in E1.
  destruct (cut_prefix (found (match_here (pat_featuring "feat."))) p1)
    as (r2 & E2 & D2). fold p2 in E2.
  destruct (cut_prefix (found (match_here (pat_featuring "ft."))) p2)
    as (r3 & E3 & D3). fold p3 in E3.
  assert (D : r3 ++ r2 ++ r1 = []
              \/ begins_with_delimiter (r3 ++ r2 ++ r1) = true).
  { destruct D3 as [-> | D3];
      [|right; now apply begins_with_delimiter_app, found_ft_begins].
    cbn [app]. destruct D2 as [-> | D2];
      [|right; now apply begins_with_delimiter_app, found_feat_begins].
    cbn [app]. destruct D1 as [-> | D1]; [now left|].
    right. now apply found_separator_begins. }
  destruct (strip_cut p3 _ D) as (rest & Es & Hrest).
  exists rest. split; [|split; [exact Hrest|split; [exact Hfree|]]].
  - rewrite <- Es. f_equal.
    rewrite E1 at 1. rewrite E2 at 1. rewrite E3 at 1.
    now rewrite <- !app_assoc.
  - apply trimmed_strip.
Qed.

Lemma clean_artist_cuts_at_first_delimiter_witness :
  exists rest,
    strip " Drake  feat. Future, Lil Baby " = clean_artist
      " Drake  feat. Future, Lil Baby " ++ rest /\
    (rest = [] \/ begins_with_delimiter rest = true) /\
    delimiter_free (clean_artist " Drake  feat. Future, Lil Baby ") = true /\
    trimmed (clean_artist " Drake  feat. Future, Lil Baby ").
Proof.
  apply clean_artist_cuts_at_first_delimiter. reflexivity.
Defined.

(** X3.  On an artist without a line break, cleaning the artist a second
    time changes nothing. *)
Theorem clean_artist_idempotent (artist : str) :
  one_line artist = true ->
  clean_artist (clean_artist artist) = clean_artist artist.
Proof.
  intros H. rewrite (clean_artist_plain (clean_artist artist))
    by now apply clean_artist_free.
  unfold clean_artist at 2. apply strip_fixed.
Qed.

Lemma clean_artist_idempotent_witness :
  clean_artist (clean_artist "Simon & Garfunkel")
  = clean_artist "Simon & Garfunkel".
Proof. apply clean_artist_idempotent. reflexivity. Defined.

(** ** When the guard raises *)

Lemma first_word_none (s : str) : first_word s = None <-> blank s = true.
Proof.
  unfold first_word. rewrite <- lstrip_blank.
  destruct (lstrip s); split; congruence.
Qed.

(** X4.  [should_add_artist] raises [IndexError] exactly when the artist
    is not empty, consists of whitespace only, and does not occur in the
    title once both are lowercased; on every other pair it returns. *)
Theorem should_add_artist_raises_iff (artist title : str) :
  should_add_artist artist title = Raise IndexError <->
  artist <> [] /\ blank artist = true /\
  contains (lower artist) (lower title) = false.
Proof.
  rewrite should_add_artist_unfold. split.
  - destruct (negb (truthy artist) || str_eqb artist "Unknown Artist") eqn:G;
      [discriminate|].
    destruct (contains (lower artist) (lower title)); [discriminate|].
    destruct (first_word (lower artist)) as [w|] eqn:W; [discriminate|].
    intros _. apply first_word_none in W. rewrite blank_lower in W.
    apply orb_false_elim in G as [G _]. apply negb_false_iff in G.
    apply truthy_true in G. auto.
  - intros (Hn & Hb & Hc). apply truthy_true in Hn.
    assert (E : str_eqb artist "Unknown Artist" = false).
    { destruct (str_eqb artist "Unknown Artist") eqn:E; [|reflexivity].
      apply str_eqb_eq in E. subst artist. discriminate. }
    rewrite Hn, E, Hc. cbn [negb orb].
    rewrite <- blank_lower in Hb. apply first_word_none in Hb.
    now rewrite Hb.
Qed.

(** ** The CSV adapter, row by row *)

Lemma csv_row_strings (r : row) :
  strings_only r = true ->
  (has_track r = false /\ csv_row r = Ok None) \/
  (has_track r = true /\ exists e, csv_row r = Ok (Some e)).
Proof.
  unfold strings_only, has_track, csv_row.
  destruct (get r "Track Name" (PyStr "")) as [|t]; [discriminate|].
  destruct (get r "Artist Name(s)" (PyStr "")) as [|a]; [discriminate|].
  intros _. cbn [cell_strip bind].
  destruct (truthy (strip t)); cbn [negb]; [right|left; now split].
  split; [reflexivity|]. destruct (truthy (strip a)).
  - destruct (with_artist_returns (strip a) (strip t)) as (add & _ & _ & W).
    rewrite W. cbn [bind]. eauto.
  - eauto.
Qed.

Lemma csv_row_none (r : row) :
  strings_only r = false -> csv_row r = Raise AttributeError.
Proof.
  unfold strings_only, csv_row.
  destruct (get r "Track Name" (PyStr "")) as [|t]; [reflexivity|].
  destruct (get r "Artist Name(s)" (PyStr "")) as [|a]; [|discriminate].
  reflexivity.
Qed.

Lemma csv_loop_strings (rows : list row) :
  forallb strings_only rows = true ->
  forall row_num songs out,
  exists new,
    csv_loop row_num rows songs out
    = (Returned (songs ++ new),
       out ++ map NoTrackName (skipped_rows row_num rows)) /\
    Forall2 (fun r e => csv_row r = Ok (Some e)) (filter has_track rows) new.
Proof.
  induction rows as [|r rows IH]; intros H n songs out.
  - exists []. cbn. rewrite !app_nil_r. split; [reflexivity|constructor].
  - cbn [forallb] in H. apply andb_prop in H as [Hr H].
    cbn [csv_loop skipped_rows filter].
    destruct (csv_row_strings r Hr) as [[T R] | (T & e & R)]; rewrite T, R.
    + destruct (IH H (S n) songs (out ++ [NoTrackName n])) as (new & E & F).
      exists new. split; [|exact F]. rewrite E. cbn [map].
      now rewrite <- app_assoc.
    + destruct (IH H (S n) (songs ++ [e]) out) as (new & E & F).
      exists (e :: new). split; [|now constructor].
      rewrite E. now rewrite <- app_assoc.
Qed.

Lemma skipped_rows_length (rows : list row) :
  forall n,
    length (filter has_track rows) + length (skipped_rows n rows)
    = length rows.
Proof.
  induction rows as [|r rows IH]; intros n; [reflexivity|].
  cbn [filter skipped_rows]. specialize (IH (S n)).
  destruct (has_track r); cbn [length]; lia.
Qed.

(** X5.  On a file whose rows hold strings in both columns, the CSV
    adapter returns: it gives one entry for each row with a track name, in
    the order of the rows, and prints one warning for each other row, with
    the number of that row counted from 1; entries and warnings together
    are as many as the rows. *)
Theorem csv_rows_accounted (rows : list row) :
  forallb strings_only rows = true ->
  exists songs,
    process_csv_export (Content rows)
    = (Returned songs, map NoTrackName (skipped_rows 1 rows)) /\
    Forall2 (fun r e => csv_row r = Ok (Some e))
      (filter has_track rows) songs /\
    length songs + length (skipped_rows 1 rows) = length rows.
Proof.
  intros H. destruct (csv_loop_strings rows H 1 [] []) as (new & E & F).
  exists new. split; [exact E|]. split; [exact F|].
  rewrite <- (Forall2_length F). apply skipped_rows_length.
Qed.

Lemma csv_rows_accounted_witness :
  exists songs,
    process_csv_export
      (Content [exportify_row "One Dance" "Drake"; exportify_row " " "Adele"])
    = (Returned songs,
       map NoTrackName
         (skipped_rows 1
            [exportify_row "One Dance" "Drake"; exportify_row " " "Adele"]))
    /\
    Forall2 (fun r e => csv_row r = Ok (Some e))
      (filter has_track
         [exportify_row "One Dance" "Drake"; exportify_row " " "Adele"])
      songs /\
    length songs
    + length (skipped_rows 1
                [exportify_row "One Dance" "Drake";
                 exportify_row " " "Adele"])
    = length [exportify_row "One Dance" "Drake"; exportify_row " " "Adele"].
Proof. apply csv_rows_accounted. reflexivity. Defined.

Lemma csv_loop_aborts (rows : list row) :
  forallb strings_only rows = false ->
  forall row_num songs out,
  exists out',
    csv_loop row_num rows songs out
    = (SysExit 1, out' ++ [ReadError AttributeError]).
Proof.
  induction rows as [|r rows IH]; intros H n songs out; [discriminate|].
  cbn [forallb] in H. cbn [csv_loop].
  destruct (strings_only r) eqn:Hr.
  - cbn [andb] in H.
    destruct (csv_row_strings r Hr) as [[_ R] | (_ & e & R)]; rewrite R;
      now apply IH.
  - rewrite (csv_row_none r Hr). now exists out.
Qed.

(** X6.  When some row of the file holds [None] in one of the two columns,
    as a row shorter than the header does, the CSV adapter ends the run
    with status 1 whatever the other rows are: no entry is returned, and
    the last message is the error of the [strip] on [None]. *)
Theorem csv_short_row_aborts (rows : list row) :
  forallb strings_only rows = false ->
  exists out,
    process_csv_export (Content rows)
    = (SysExit 1, out ++ [ReadError AttributeError]).
Proof. intros H. exact (csv_loop_aborts rows H 1 [] []). Qed.

Lemma csv_short_row_aborts_witness :
  exists out,
    process_csv_export
      (Content [exportify_row "One Dance" "Drake";
                (fun key => Some PyNone);
                exportify_row "Hello" "Adele"])
    = (SysExit 1, out ++ [ReadError AttributeError]).
Proof. apply csv_short_row_aborts. reflexivity. Defined.

(** ** The text adapter and the interactive adapter, line by line *)

Lemma parse_line_returns (line : str) : exists e, parse_line line = Ok e.
Proof.
  destruct (partition_at " - " line) as [[before rest]|] eqn:P.
  - rewrite (parse_line_separator _ _ _ P).
    destruct (with_artist_returns (strip before) (strip rest))
      as (add & _ & _ & W). eauto.
  - rewrite parse_line_bare by now rewrite contains_partition, P. eauto.
Qed.

Lemma text_line_kept (line : str) :
  kept line = true ->
  exists e, parse_line (strip line) = Ok e /\ text_line line = Ok (Some e).
Proof.
  unfold kept, text_line. intros H. apply andb_prop in H as [Ht Hc].
  apply negb_true_iff in Hc. rewrite Ht, Hc. cbn [negb orb].
  destruct (parse_line_returns (strip line)) as [e P]. rewrite P. eauto.
Qed.

Lemma text_line_dropped (line : str) :
  kept line = false -> text_line line = Ok None.
Proof.
  unfold kept, text_line. intros H.
  destruct (truthy (strip line)); cbn [negb orb andb] in *; [|reflexivity].
  apply negb_false_iff in H. now rewrite H.
Qed.

Lemma text_loop_returns (lines : list str) :
  forall line_num songs out,
  exists new,
    text_loop line_num lines songs out = (Returned (songs ++ new), out) /\
    Forall2 (fun l e => parse_line (strip l) = Ok e) (filter kept lines) new.
Proof.
  induction lines as [|l lines IH]; intros n songs out.
  - exists []. cbn. rewrite app_nil_r. split; [reflexivity|constructor].
  - cbn [text_loop filter]. destruct (kept l) eqn:K.
    + destruct (text_line_kept l K) as (e & P & T). rewrite T.
      destruct (IH (S n) (songs ++ [e]) out) as (new & E & F).
      exists (e :: new). split; [|now constructor].
      rewrite E. now rewrite <- app_assoc.
    + rewrite (text_line_dropped l K). apply IH.
Qed.

Lemma text_loop_prints_nothing (lines : list str) :
  forall line_num songs out,
  exists songs', text_loop line_num lines songs out = (Returned songs', out).
Proof.
  intros n songs out.
  destruct (text_loop_returns lines n songs out) as (new & E & _). eauto.
Qed.

(** X7.  When the text file is opened and read to its end, the text adapter
    returns and prints nothing: it gives, in the order of the lines, the
    entry of each line that is neither blank nor a comment, and no other
    entry.  When [open] or the reading of a line raises instead, whatever
    lines were read before, it prints the one message of the error and ends
    the run with status 1: the entries read so far are lost. *)
Theorem text_file_read_or_exit :
  (forall lines : list str,
      exists songs,
        process_text_list (Content lines) = (Returned songs, []) /\
        Forall2 (fun l e => parse_line (strip l) = Ok e)
          (filter kept lines) songs)
  /\
  (forall (lines : list str) (e : exn),
      process_text_list (Failing lines e) = (SysExit 1, [ReadError e])).
Proof.
  split.
  - intros lines. exact (text_loop_returns lines 1 [] []).
  - intros lines e. cbn [process_text_list].
    destruct (text_loop_prints_nothing lines 1 [] []) as [songs ->].
    reflexivity.
Qed.

Lemma text_file_read_or_exit_witness :
  process_text_list
    (Failing [of_literal "Adele - Hello"; of_literal "# later"]
       UnicodeDecodeError)
  = (SysExit 1, [ReadError UnicodeDecodeError]).
Proof.
  apply (proj2 text_file_read_or_exit
           [of_literal "Adele - Hello"; of_literal "# later"]).
Defined.

Lemma interactive_loop_goes_on (ls : list str) (console : list keyboard) :
  forallb goes_on ls = true ->
  forall songs,
  exists new,
    interactive_loop (map Typed ls ++ console) songs
    = interactive_loop console (songs ++ new) /\
    Forall2 (fun l e => parse_line (strip l) = Ok e) ls new.
Proof.
  induction ls as [|l ls IH]; intros H songs.
  - exists []. cbn. rewrite app_nil_r. split; [reflexivity|constructor].
  - cbn [forallb] in H. apply andb_prop in H as [Hl H].
    unfold goes_on in Hl. apply negb_true_iff in Hl.
    cbn [map app interactive_loop]. fold (stops (strip l)). rewrite Hl.
    destruct (parse_line_returns (strip l)) as [e P]. rewrite P.
    destruct (IH H (songs ++ [e])) as (new & E & F).
    exists (e :: new). split; [|now constructor].
    rewrite E. now rewrite <- app_assoc.
Qed.

(** X8.  The interactive adapter returns at the first typed line that is
    empty once stripped or is [q] in either letter case: it gives the
    entries of the lines typed before, in their order, and what comes
    after that line is not read. *)
Theorem interactive_input_stops (ls : list str) (last : str)
    (console : list keyboard) :
  forallb goes_on ls = true ->
  stops (strip last) = true ->
  exists songs,
    interactive_input (map Typed ls ++ Typed last :: console)
    = Returned songs /\
    Forall2 (fun l e => parse_line (strip l) = Ok e) ls songs.
Proof.
  intros H Hs. unfold interactive_input.
  destruct (interactive_loop_goes_on ls (Typed last :: console) H [])
    as (new & E & F).
  exists new. split; [|exact F]. rewrite E.
  cbn [interactive_loop app]. fold (stops (strip last)). now rewrite Hs.
Qed.

Lemma interactive_input_stops_witness :
  exists songs,
    interactive_input
      (map Typed [of_literal "Adele - Hello"; of_literal "Bohemian Rhapsody"]
       ++ Typed " Q " :: [Typed "Pink Floyd - Money"])
    = Returned songs /\
    Forall2 (fun l e => parse_line (strip l) = Ok e)
      [of_literal "Adele - Hello"; of_literal "Bohemian Rhapsody"] songs.
Proof. apply interactive_input_stops; reflexivity. Defined.

(** X9.  When the typed lines run out, or Ctrl-C comes, before a line that
    ends the input, the interactive adapter returns nothing of what was
    typed: the end of the input is an uncaught [EOFError], and Ctrl-C ends
    the run with status 0. *)
Theorem interactive_input_loses_songs (ls : list str)
    (console : list keyboard) :
  forallb goes_on ls = true ->
  interactive_input (map Typed ls) = Uncaught EOFError /\
  interactive_input (map Typed ls ++ Interrupt :: console) = SysExit 0.
Proof.
  intros H. unfold interactive_input. split.
  - destruct (interactive_loop_goes_on ls [] H []) as (new & E & _).
    rewrite app_nil_r in E. now rewrite E.
  - destruct (interactive_loop_goes_on ls (Interrupt :: console) H [])
      as (new & E & _).
    now rewrite E.
Qed.

Lemma interactive_input_loses_songs_witness :
  interactive_input (map Typed [of_literal "Adele - Hello"])
  = Uncaught EOFError /\
  interactive_input
    (map Typed [of_literal "Adele - Hello"] ++ Interrupt :: [Typed "q"])
  = SysExit 0.
Proof. apply interactive_input_loses_songs. reflexivity. Defined.

Lemma Forall2_parse_unique (ls : list str) (a b : list song) :
  Forall2 (fun l e => parse_line (strip l) = Ok e) ls a ->
  Forall2 (fun l e => parse_line (strip l) = Ok e) ls b ->
  a = b.
Proof.
  intros Ha. revert b. induction Ha as [|l e ls a He Ha IH]; intros b Hb.
  - now inversion Hb.
  - inversion Hb as [|l' e' ls' b' He' Hb' E1 E2]; subst.
    f_equal; [congruence|now apply IH].
Qed.

Lemma filter_all {A : Type} (f : A -> bool) (l : list A) :
  forallb f l = true -> filter f l = l.
Proof.
  induction l as [|x l IH]; [reflexivity|].
  cbn [forallb filter]. intros H. apply andb_prop in H as [-> H].
  now rewrite IH.
Qed.

(** X10.  Lines that hold no comment and do not end the typed input give
    the same entries whether they are read from a text file or typed and
    closed by an empty line. *)
Theorem text_and_typed_agree (ls : list str) :
  forallb goes_on ls = true ->
  forallb (fun l => negb (startswith "#" (strip l))) ls = true ->
  exists songs,
    process_text_list (Content ls) = (Returned songs, []) /\
    interactive_input (map Typed ls ++ [Typed ""]) = Returned songs.
Proof.
  intros Hg Hc.
  destruct (text_loop_returns ls 1 [] []) as (songs & E & F).
  exists songs. split; [exact E|].
  assert (K : forallb kept ls = true).
  { apply forallb_forall. intros l Hl.
    rewrite forallb_forall in Hg, Hc. specialize (Hg l Hl).
    specialize (Hc l Hl). unfold kept, goes_on, stops in *.
    apply negb_true_iff, orb_false_elim in Hg as [Hg _].
    apply negb_false_iff in Hg. now rewrite Hg, Hc. }
  rewrite (filter_all _ _ K) in F.
  unfold interactive_input.
  destruct (interactive_loop_goes_on ls [Typed ""] Hg []) as (new & E' & F').
  rewrite E'. cbn [interactive_loop app].
  now rewrite (Forall2_parse_unique ls songs new F F').
Qed.

Lemma text_and_typed_agree_witness :
  exists songs,
    process_text_list
      (Content [of_literal "Adele - Hello"; of_literal "Bohemian Rhapsody"])
    = (Returned songs, []) /\
    interactive_input
      (map Typed [of_literal "Adele - Hello"; of_literal "Bohemian Rhapsody"]
       ++ [Typed ""])
    = Returned songs.
Proof. apply text_and_typed_agree; reflexivity. Defined.

(** ** Lines written from a cleaned artist and a cleaned title *)

Lemma separator_at_boundary (u t : str) :
  u <> [] ->
  drop_prefix " - " (u ++ (" - " : str) ++ t) = None <->
  startswith " - " (u ++ (" -" : str)) = false.
Proof.
  intros Hu. rewrite startswith_drop_prefix.
  destruct u as [|x [|y [|z u]]]; [congruence| | |];
    cbn [app of_literal list_ascii_of_string drop_prefix];
    destruct (Ascii.eqb " " x); try (split; congruence).
  - now split.
  - destruct (Ascii.eqb "-" y); now split.
  - destruct (Ascii.eqb "-" y); [|now split].
    destruct (Ascii.eqb " " z); now split.
Qed.

(** The first separator of [a - t] is the one written between [a] and [t]
    when [a] neither holds a separator nor ends with its first two
    characters. *)
Lemma partition_at_written (a t : str) :
  contains " - " (a ++ (" -" : str)) = false ->
  partition_at " - " (a ++ (" - " : str) ++ t) = Some (a, t).
Proof.
  induction a as [|c a IH]; intros H.
  - reflexivity.
  - change ((c :: a) ++ (" -" : str)) with (c :: (a ++ (" -" : str))) in H.
    cbn [contains] in H. apply orb_false_elim in H as [Hs Hc].
    change ((c :: a) ++ (" - " : str) ++ t)
      with (c :: (a ++ (" - " : str) ++ t)).
    cbn [partition_at].
    assert (D : drop_prefix " - " (c :: a ++ (" - " : str) ++ t) = None).
    { apply (separator_at_boundary (c :: a) t); [discriminate|exact Hs]. }
    rewrite D, (IH Hc). reflexivity.
Qed.

Lemma clean_artist_fixed_strip (a : str) : clean_artist a = a -> strip a = a.
Proof. intros H. rewrite <- H. unfold clean_artist. apply strip_fixed. Qed.

Lemma clean_title_fixed_strip (t : str) : clean_title t = t -> strip t = t.
Proof.
  intros H. rewrite <- H, clean_title_spans. unfold normalize_space.
  apply strip_fixed.
Qed.

Lemma strip_fixed_ends (s : str) :
  strip s = s -> unpadded_left s /\ rstrip s = s.
Proof.
  intros H. split.
  - rewrite <- H. apply strip_unpadded.
  - rewrite <- H at 1. unfold strip. rewrite rstrip_fixed. exact H.
Qed.

Lemma strip_written (a t : str) :
  strip a = a -> a <> [] -> strip t = t -> t <> [] ->
  strip (a ++ (" - " : str) ++ t) = a ++ (" - " : str) ++ t.
Proof.
  intros Ha Hna Ht Hnt.
  apply strip_fixed_ends in Ha as [Hu _].
  apply strip_fixed_ends in Ht as [_ Hr].
  unfold strip. rewrite lstrip_fixed.
  - rewrite app_assoc. rewrite rstrip_app_fixed by assumption.
    now rewrite <- app_assoc.
  - now apply unpadded_app.
Qed.

(** X11.  The line format of the text adapter gives back what is written
    in it: when the artist is a non-empty fixed point of [clean_artist]
    that does not start with [#] and neither holds the separator nor ends
    with its first two characters, and the title is a non-empty fixed point
    of [clean_title], the text adapter reads the line [artist - title] as
    the entry that the shared branch builds from them, and the artist and
    the title of that entry are the ones written. *)
Theorem separator_line_reads_back (a t : str) :
  a <> [] -> startswith "#" a = false ->
  clean_artist a = a ->
  contains " - " (a ++ (" -" : str)) = false ->
  t <> [] -> clean_title t = t ->
  exists e,
    with_artist a t = Ok e /\
    artist e = a /\
    title e = t /\
    text_line (a ++ (" - " : str) ++ t) = Ok (Some e).
Proof.
  intros Hna Hc Ha Hsep Hnt Ht.
  destruct (with_artist_returns a t) as (add & _ & _ & W).
  rewrite Ha, Ht in W.
  exists (entry a t (assemble add a t)). split; [exact W|].
  split.
  { unfold entry, or_else. cbn [artist].
    apply truthy_true in Hna. now rewrite Hna. }
  split; [reflexivity|].
  pose proof (clean_artist_fixed_strip a Ha) as Sa.
  pose proof (clean_title_fixed_strip t Ht) as St.
  unfold text_line. rewrite strip_written by assumption.
  assert (T : truthy (a ++ (" - " : str) ++ t) = true).
  { destruct a; [congruence|reflexivity]. }
  assert (C : startswith "#" (a ++ (" - " : str) ++ t) = false).
  { destruct a as [|x a]; [congruence|]. exact Hc. }
  rewrite T, C. cbn [negb orb].
  rewrite (parse_line_separator _ _ _ (partition_at_written a t Hsep)).
  now rewrite Sa, St, W.
Qed.

Lemma separator_line_reads_back_witness :
  exists e,
    with_artist "Pink Floyd" "Comfortably Numb" = Ok e /\
    artist e = "Pink Floyd" /\
    title e = "Comfortably Numb" /\
    text_line
      (("Pink Floyd" : str) ++ (" - " : str) ++ ("Comfortably Numb" : str))
    = Ok (Some e).
Proof.
  apply separator_line_reads_back; try reflexivity; discriminate.
Defined.

(** X12.  A title written alone on a line is read back as it is: when it
    is a non-empty fixed point of [clean_title] that holds no separator and
    does not start with [#], the text adapter reads the line as the entry
    with the sentinel artist whose title and search string are that
    title. *)
Theorem bare_line_reads_back (t : str) :
  t <> [] -> clean_title t = t ->
  contains " - " t = false -> startswith "#" t = false ->
  text_line t
  = Ok (Some {| artist := "Unknown Artist"; title := t; search := t |}).
Proof.
  intros Hnt Ht Hsep Hc. unfold text_line.
  rewrite (clean_title_fixed_strip t Ht).
  apply truthy_true in Hnt. rewrite Hnt, Hc. cbn [negb orb].
  rewrite parse_line_bare by exact Hsep. now rewrite Ht.
Qed.

Lemma bare_line_reads_back_witness :
  text_line "Bohemian Rhapsody"
  = Ok (Some {| artist := "Unknown Artist"; title := "Bohemian Rhapsody";
                search := "Bohemian Rhapsody" |}).
Proof.
  apply bare_line_reads_back; try reflexivity; discriminate.
Defined.

(** ** Line breaks, and the batch file *)

Lemma sub_from_In (m : str -> option str) (c : ascii) (s : str) :
  forall k, In c (sub_from m "" k s) -> In c s.
Proof.
  induction s as [|x s IH]; intros k; [easy|].
  cbn [sub_from]. destruct k as [|k].
  - destruct (m (x :: s)) as [rest|].
    + destruct (length (x :: s) - length rest).
      * intros [<- | H]; [now left|right; now apply IH with 0].
      * cbn [of_literal list_ascii_of_string app]. intros H.
        right. now apply IH with n.
    + intros [<- | H]; [now left|right; now apply IH with 0].
  - intros H. right. now apply IH with k.
Qed.

Lemma strip_In (c : ascii) (s : str) : In c (strip s) -> In c s.
Proof.
  destruct (strip_split s) as (w1 & w2 & _ & _ & E). intros H.
  rewrite E. apply in_or_app. right. apply in_or_app. now left.
Qed.

Lemma clean_artist_In (c : ascii) (artist : str) :
  In c (clean_artist artist) -> In c artist.
Proof.
  unfold clean_artist, re_sub. intros H.
  apply strip_In in H. now repeat apply sub_from_In in H.
Qed.

Lemma one_line_subset (a b : str) :
  (forall c, In c a -> In c b) -> one_line b = true -> one_line a = true.
Proof.
  unfold one_line. rewrite !forallb_forall. auto.
Qed.

Lemma tidy_one_line (s : str) : tidy s = true -> one_line s = true.
Proof.
  induction s as [|c s IH]; [reflexivity|].
  cbn [tidy]. intros H. apply andb_prop in H as [Hc H].
  apply one_line_cons. split; [|now apply IH].
  unfold dot. destruct (Ascii.eqb c newline) eqn:E; [|reflexivity].
  apply Ascii.eqb_eq in E. subst c. discriminate.
Qed.

Lemma clean_title_one_line (t : str) : one_line (clean_title t) = true.
Proof.
  apply tidy_one_line. rewrite clean_title_spans. apply tidy_normalize.
Qed.

Lemma with_artist_one_line (a t : str) (e : song) :
  with_artist a t = Ok e ->
  one_line (title e) = true /\
  (one_line a = true -> one_line (search e) = true).
Proof.
  intros W. destruct (with_artist_returns a t) as (add & _ & _ & W').
  rewrite W' in W. injection W as <-. cbn [title search entry].
  split; [apply clean_title_one_line|]. intros Ha.
  unfold assemble. destruct add; [|apply clean_title_one_line].
  apply one_line_app. split.
  - apply (one_line_subset _ a); [|exact Ha].
    intros c. apply clean_artist_In.
  - apply one_line_app. split; [reflexivity|apply clean_title_one_line].
Qed.

(** X13.  The title of an entry never holds a line break, whatever the raw
    title was; its search string holds none either when the raw artist
    holds none. *)
Theorem entry_on_one_line (a t : str) (e : song) :
  with_artist a t = Ok e ->
  one_line (title e) = true /\
  (one_line a = true -> one_line (search e) = true).
Proof. exact (with_artist_one_line a t e). Qed.

Lemma entry_on_one_line_witness :
  one_line
    (title {| artist := "Drake"; title := "One Dance";
              search := "Drake One Dance" |}) = true /\
  (one_line "Drake" = true ->
   one_line
     (search {| artist := "Drake"; title := "One Dance";
                search := "Drake One Dance" |}) = true).
Proof.
  apply (entry_on_one_line "Drake" (two_lines "One" "Dance")).
  reflexivity.
Defined.

Lemma generate_as_map (songs : list song) (search_quality : str) :
  generate_youtube_searches songs search_quality
  = map (fun s => directive search_quality (search s)) songs.
Proof.
  unfold generate_youtube_searches. rewrite fold_left_append.
  rewrite app_nil_l. apply map_ext. intros s. unfold directive.
  destruct (str_eqb search_quality "best"); [reflexivity|].
  destruct (str_eqb search_quality "fast"); [|reflexivity].
  change (of_literal "") with (@nil ascii). now rewrite app_nil_r.
Qed.

Lemma written_text (urls : list str) :
  forall written,
    fold_left (fun written url => written ++ (url ++ [newline])) urls written
    = written ++ concat (map (fun url => url ++ [newline]) urls).
Proof.
  induction urls as [|u urls IH]; intros written; cbn [fold_left map concat].
  - now rewrite app_nil_r.
  - rewrite IH. now rewrite <- app_assoc.
Qed.

Lemma count_newlines_app (a b : str) :
  count_newlines (a ++ b) = count_newlines a + count_newlines b.
Proof. unfold count_newlines. now rewrite filter_app, length_app. Qed.

Lemma count_newlines_one_line (s : str) :
  one_line s = true -> count_newlines s = 0.
Proof.
  unfold count_newlines. induction s as [|c s IH]; [reflexivity|].
  intros H. apply one_line_cons in H as [Hc H]. unfold dot in Hc.
  apply negb_true_iff in Hc. cbn [filter]. rewrite Hc. now apply IH.
Qed.

Lemma count_newlines_lines (urls : list str) :
  Forall (fun u => one_line u = true) urls ->
  count_newlines (concat (map (fun url => url ++ [newline]) urls))
  = length urls.
Proof.
  induction 1 as [|u urls Hu _ IH]; [reflexivity|].
  cbn [map concat length]. rewrite !count_newlines_app, IH.
  now rewrite (count_newlines_one_line u Hu).
Qed.

Lemma directive_one_line (search_quality query : str) :
  one_line query = true -> one_line (directive search_quality query) = true.
Proof.
  intros H. unfold directive. apply one_line_app. split; [reflexivity|].
  apply one_line_app. split; [exact H|].
  destruct (str_eqb search_quality "best"); [reflexivity|].
  now destruct (str_eqb search_quality "fast").
Qed.

Lemma batch_of_songs (songs : list song) (search_quality output_file : str) :
  Forall (fun e => one_line (search e) = true) songs ->
  exists text,
    save_yt_dlp_batch_file true
      (generate_youtube_searches songs search_quality) output_file
    = Saved output_file text (length songs) /\
    text
    = concat
        (map (fun e => directive search_quality (search e) ++ [newline])
           songs) /\
    count_newlines text = length songs.
Proof.
  intros H. unfold save_yt_dlp_batch_file.
  rewrite generate_as_map, written_text, length_map, app_nil_l, map_map.
  eexists. split; [reflexivity|]. split; [reflexivity|].
  rewrite <- (map_map (fun e => directive search_quality (search e))
                (fun u => u ++ [newline])).
  rewrite count_newlines_lines; [apply length_map|].
  apply Forall_map. eapply Forall_impl; [|exact H].
  intros e. apply directive_one_line.
Qed.

(** X14.  When no search string holds a line break, the batch file written
    for the songs is, for each song in order, its directive and a line
    break: the file has as many line breaks as there are songs, which is
    also the number that is printed. *)
Theorem batch_file_one_line_per_song
    (songs : list song) (search_quality output_file : str) :
  Forall (fun e => one_line (search e) = true) songs ->
  exists text,
    save_yt_dlp_batch_file true
      (generate_youtube_searches songs search_quality) output_file
    = Saved output_file text (length songs) /\
    text
    = concat
        (map (fun e => directive search_quality (search e) ++ [newline])
           songs) /\
    count_newlines text = length songs.
Proof. exact (batch_of_songs songs search_quality output_file). Qed.

Lemma batch_file_one_line_per_song_witness :
  exists text,
    save_yt_dlp_batch_file true
      (generate_youtube_searches
         [entry "Drake" "One Dance" "Drake One Dance"] "best")
      "youtube_downloads.txt"
    = Saved "youtube_downloads.txt" text
        (length [entry "Drake" "One Dance" "Drake One Dance"]) /\
    text
    = concat
        (map (fun e => directive "best" (search e) ++ [newline])
           [entry "Drake" "One Dance" "Drake One Dance"]) /\
    count_newlines text
    = length [entry "Drake" "One Dance" "Drake One Dance"].
Proof.
  apply batch_file_one_line_per_song. repeat constructor.
Defined.

Lemma partition_at_parts (sep s before rest : str) :
  partition_at sep s = Some (before, rest) ->
  exists mid, s = before ++ mid ++ rest.
Proof.
  revert before. induction s as [|c s IH]; intros before;
    cbn [partition_at].
  - destruct (drop_prefix sep []) as [r|] eqn:D; [|discriminate].
    intros [= <- <-]. destruct sep; [|discriminate].
    injection D as <-. now exists [].
  - destruct (drop_prefix sep (c :: s)) as [r|] eqn:D.
    + intros [= <- <-]. clear IH. revert D.
      generalize (c :: s). intros u. revert u.
      induction sep as [|a sep IHs]; intros u.
      * intros [= <-]. now exists [].
      * destruct u as [|b u]; [discriminate|]. cbn [drop_prefix].
        destruct (Ascii.eqb a b); [|discriminate].
        intros D. apply IHs in D as [mid E]. cbn [app] in E.
        exists (b :: mid). cbn [app]. now f_equal.
    + destruct (partition_at sep s) as [[b r]|]; [|discriminate].
      intros [= <- <-]. destruct (IH b eq_refl) as [mid ->].
      now exists mid.
Qed.

Lemma parse_line_one_line (line : str) (e : song) :
  one_line line = true -> parse_line line = Ok e ->
  one_line (search e) = true.
Proof.
  intros H. destruct (partition_at " - " line) as [[before rest]|] eqn:P.
  - rewrite (parse_line_separator _ _ _ P). intros W.
    apply with_artist_one_line in W as [_ W]. apply W.
    apply partition_at_parts in P as [mid ->].
    apply one_line_app in H as [H _].
    apply (one_line_subset _ before); [|exact H]. intros c. apply strip_In.
  - rewrite parse_line_bare by now rewrite contains_partition, P.
    intros [= <-]. apply clean_title_one_line.
Qed.

Lemma parsed_on_one_line (ls : list str) (songs : list song) :
  Forall (fun l => one_line (strip l) = true) ls ->
  Forall2 (fun l e => parse_line (strip l) = Ok e) ls songs ->
  Forall (fun e => one_line (search e) = true) songs.
Proof.
  intros H F. induction F as [|l e ls songs P F IH]; constructor.
  - apply parse_line_one_line with (strip l); [|exact P].
    now inversion H.
  - apply IH. now inversion H.
Qed.

(** X15.  From a text file to the batch file: when no line of the file
    holds a line break once stripped, the text adapter returns, and the
    batch file written for what it returns has exactly one line break for
    each line of the text file that is neither blank nor a comment. *)
Theorem text_file_to_batch_file
    (lines : list str) (search_quality output_file : str) :
  forallb (fun l => one_line (strip l)) lines = true ->
  exists songs text,
    process_text_list (Content lines) = (Returned songs, []) /\
    save_yt_dlp_batch_file true
      (generate_youtube_searches songs search_quality) output_file
    = Saved output_file text (length songs) /\
    count_newlines text = length (filter kept lines).
Proof.
  intros H. destruct (text_loop_returns lines 1 [] []) as (songs & E & F).
  assert (Hs : Forall (fun e => one_line (search e) = true) songs).
  { apply parsed_on_one_line with (filter kept lines); [|exact F].
    apply Forall_forall. intros l Hl. apply filter_In in Hl as [Hl _].
    rewrite forallb_forall in H. now apply H. }
  destruct (batch_of_songs songs search_quality output_file Hs)
    as (text & S & _ & C).
  exists songs, text. split; [exact E|]. split; [exact S|].
  rewrite C. symmetry. exact (Forall2_length F).
Qed.

Lemma text_file_to_batch_file_witness :
  exists songs text,
    process_text_list
      (Content [two_lines "Adele - Hello" ""; two_lines "# favourites" "";
                two_lines "Bohemian Rhapsody" ""])
    = (Returned songs, []) /\
    save_yt_dlp_batch_file true
      (generate_youtube_searches songs "fast") "youtube_downloads.txt"
    = Saved "youtube_downloads.txt" text (length songs) /\
    count_newlines text
    = length
        (filter kept
           [two_lines "Adele - Hello" ""; two_lines "# favourites" "";
            two_lines "Bohemian Rhapsody" ""]).
Proof. apply text_file_to_batch_file. reflexivity. Defined.

(** ** More on [clean_title] *)

Lemma clean_title_padded (w1 s w2 : str) :
  blank w1 = true -> blank w2 = true ->
  clean_title (w1 ++ s ++ w2) = clean_title s.
Proof.
  intros H1 H2. rewrite !clean_title_spans.
  rewrite remove_noise_padded by assumption.
  now apply normalize_space_padded.
Qed.

(** X16.  Whitespace put before or after a raw title, line breaks
    included, never changes the cleaned title. *)
Theorem clean_title_ignores_padding (w1 s w2 : str) :
  blank w1 = true -> blank w2 = true ->
  clean_title (w1 ++ s ++ w2) = clean_title s.
Proof. exact (clean_title_padded w1 s w2). Qed.

Lemma clean_title_ignores_padding_witness :
  clean_title ((" " : str) ++ ("Song (Live Version)" : str)
               ++ two_lines " " "")
  = clean_title "Song (Live Version)".
Proof. apply clean_title_ignores_padding; reflexivity. Defined.

Lemma rstrip_trimmed (s : str) : unpadded_left (rev s) -> rstrip s = s.
Proof.
  intros H. destruct (rstrip_split s) as (w & Hw & E).
  destruct w as [|c w]; [now rewrite app_nil_r in E|].
  exfalso. rewrite E, rev_app_distr in H.
  assert (Hl : blank (rev (c :: w)) = true).
  { unfold blank in *. rewrite forallb_forall in *.
    intros x Hx. apply Hw. now apply in_rev. }
  destruct (rev (c :: w)) as [|d r] eqn:R.
  - apply (f_equal (@length ascii)) in R.
    rewrite length_rev in R. discriminate.
  - apply blank_cons in Hl as [Hd _]. simpl in H. congruence.
Qed.

Lemma strip_trimmed (s : str) : trimmed s -> strip s = s.
Proof.
  intros [Hl Hr]. unfold strip.
  rewrite lstrip_fixed by exact Hl. now apply rstrip_trimmed.
Qed.

Lemma clean_title_plain (s : str) :
  no_openers s = true -> clean_title s = strip (squeeze false s).
Proof.
  intros H. apply noise_free_without_openers in H.
  assert (Hall : forall r, In r noise_patterns -> re_sub r "" s = s).
  { intros r Hr. apply re_sub_no_match.
    unfold noise_free in H. rewrite forallb_forall in H.
    apply negb_true_iff. now apply H. }
  unfold clean_title.
  rewrite !Hall by (unfold noise_patterns; simpl; tauto).
  apply clean_title_tail.
Qed.

(** X17.  A title without an opening parenthesis and without an opening
    bracket only has its whitespace normalised; when its whitespace is
    already single spaces between other characters, [clean_title] returns
    the title as it is. *)
Theorem clean_title_of_plain_title (s : str) :
  no_openers s = true ->
  clean_title s = strip (squeeze false s) /\
  (tidy s = true -> trimmed s -> clean_title s = s).
Proof.
  intros H. split; [now apply clean_title_plain|].
  intros Ht Hs. rewrite clean_title_plain by exact H.
  rewrite tidy_squeeze by exact Ht. now apply strip_trimmed.
Qed.

Lemma clean_title_of_plain_title_witness :
  clean_title "Comfortably Numb" = strip (squeeze false "Comfortably Numb")
  /\
  (tidy "Comfortably Numb" = true -> trimmed "Comfortably Numb" ->
   clean_title "Comfortably Numb" = "Comfortably Numb").
Proof. apply clean_title_of_plain_title. reflexivity. Defined.

Lemma sub_from_length (m : str -> option str) (s : str) :
  forall k, length (sub_from m "" k s) <= length s.
Proof.
  induction s as [|x s IH]; intros k; [reflexivity|].
  cbn [sub_from]. destruct k as [|k].
  - destruct (m (x :: s)) as [rest|].
    + destruct (length (x :: s) - length rest).
      * cbn [length]. specialize (IH 0). lia.
      * change (of_literal "" ++ sub_from m "" n s)
          with (sub_from m "" n s).
        cbn [length]. specialize (IH n). lia.
    + cbn [length]. specialize (IH 0). lia.
  - cbn [length]. specialize (IH k). lia.
Qed.

Lemma squeeze_length (s : str) :
  forall in_run, length (squeeze in_run s) <= length s.
Proof.
  induction s as [|c s IH]; intros in_run; [reflexivity|].
  cbn [squeeze]. destruct (isspace c).
  - destruct in_run; cbn [length]; specialize (IH true); lia.
  - cbn [length]. specialize (IH false). lia.
Qed.

Lemma strip_length (s : str) : length (strip s) <= length s.
Proof.
  destruct (strip_split s) as (w1 & w2 & _ & _ & E).
  apply (f_equal (@length ascii)) in E. rewrite !length_app in E. lia.
Qed.

Lemma squeeze_In (c : ascii) (s : str) :
  forall in_run, In c (squeeze in_run s) -> c = " "%char \/ In c s.
Proof.
  induction s as [|x s IH]; intros in_run; [easy|].
  cbn [squeeze]. destruct (isspace x).
  - destruct in_run.
    + intros H. apply IH in H as [H|H]; [now left|right; now right].
    + intros [H|H]; [now left|].
      apply IH in H as [H|H]; [now left|right; now right].
  - intros [H|H]; [right; now left|].
    apply IH in H as [H|H]; [now left|right; now right].
Qed.

(** X18.  [clean_title] only takes away: the cleaned title is never longer
    than the raw title, and each of its characters is a space or a
    character of the raw title. *)
Theorem clean_title_only_removes (s : str) :
  length (clean_title s) <= length s /\
  forall c, In c (clean_title s) -> c = " "%char \/ In c s.
Proof.
  rewrite clean_title_spans. unfold normalize_space, remove_noise,
    remove_spans. split.
  - eapply Nat.le_trans; [apply strip_length|].
    eapply Nat.le_trans; [apply squeeze_length|].
    repeat (eapply Nat.le_trans; [apply sub_from_length|]).
    apply Nat.le_refl.
  - intros c H. apply strip_In, squeeze_In in H as [H|H]; [now left|].
    right. now repeat apply sub_from_In in H.
Qed.

(** ** Letter case in the guard *)

Lemma lower_char_twice (c : ascii) : lower_char (lower_char c) = lower_char c.
Proof. each_char c; reflexivity. Qed.

Lemma lower_twice (s : str) : lower (lower s) = lower s.
Proof.
  unfold lower. rewrite map_map. apply map_ext. apply lower_char_twice.
Qed.

Lemma truthy_lower (s : str) : truthy (lower s) = truthy s.
Proof. now destruct s. Qed.

Lemma lower_not_sentinel (s : str) :
  str_eqb (lower s) "Unknown Artist" = false.
Proof.
  destruct (str_eqb (lower s) "Unknown Artist") eqn:E; [|reflexivity].
  apply str_eqb_eq in E. destruct s as [|c s]; [discriminate|].
  injection E as E _. exfalso. revert E. each_char c; discriminate.
Qed.

(** X19.  The guard does not look at the letter case of the title, and it
    looks at the letter case of the artist only to compare it with the
    sentinel: lowercasing the title never changes the answer, and
    lowercasing an artist other than the sentinel does not either. *)
Theorem should_add_artist_ignores_case (artist title : str) :
  should_add_artist artist (lower title) = should_add_artist artist title /\
  (artist <> "Unknown Artist" ->
   should_add_artist (lower artist) title = should_add_artist artist title).
Proof.
  split.
  - rewrite !should_add_artist_unfold. now rewrite lower_twice.
  - intros Hn. rewrite !should_add_artist_unfold.
    rewrite lower_twice, truthy_lower, lower_not_sentinel.
    destruct (str_eqb artist "Unknown Artist") eqn:E; [|reflexivity].
    apply str_eqb_eq in E. congruence.
Qed.

Lemma should_add_artist_ignores_case_witness :
  should_add_artist "Drake" (lower "ONE DANCE BY DRAKE")
  = should_add_artist "Drake" "ONE DANCE BY DRAKE" /\
  (("Drake" : str) <> "Unknown Artist" ->
   should_add_artist (lower "Drake") "ONE DANCE BY DRAKE"
   = should_add_artist "Drake" "ONE DANCE BY DRAKE").
Proof. apply should_add_artist_ignores_case. Defined.

(** ** Missing columns *)

Lemma csv_loop_no_track (rows : list row) :
  (forall r, In r rows ->
     r (of_literal "Track Name") = None /\ strings_only r = true) ->
  forall row_num songs out,
    csv_loop row_num rows songs out
    = (Returned songs,
       out ++ map NoTrackName (seq row_num (length rows))).
Proof.
  induction rows as [|r rows IH]; intros H n songs out.
  - cbn. now rewrite app_nil_r.
  - destruct (H r (or_introl eq_refl)) as [Ht Hs].
    assert (T : has_track r = false).
    { unfold has_track, get. now rewrite Ht. }
    cbn [csv_loop length seq map].
    destruct (csv_row_strings r Hs) as [[_ R] | [T' _]]; [|congruence].
    rewrite R, IH by (intros r' Hr'; apply H; now right).
    now rewrite <- app_assoc.
Qed.

(** X20.  A CSV file without a [Track Name] column gives no entry at all:
    when every row lacks that key, and holds no [None] under the artist
    key, the adapter returns the empty list and prints one warning for
    each row, numbered from 1. *)
Theorem csv_without_track_column (rows : list row) :
  (forall r, In r rows ->
     r (of_literal "Track Name") = None /\ strings_only r = true) ->
  process_csv_export (Content rows)
  = (Returned [], map NoTrackName (seq 1 (length rows))).
Proof. intros H. exact (csv_loop_no_track rows H 1 [] []). Qed.

Lemma csv_without_track_column_witness :
  process_csv_export
    (Content [(fun key => if str_eqb key "Title"
                          then Some (PyStr "Hello") else None);
              (fun key => None)])
  = (Returned [], map NoTrackName (seq 1 2)).
Proof.
  apply (csv_without_track_column
           [(fun key => if str_eqb key "Title"
                        then Some (PyStr "Hello") else None);
            (fun key => None)]).
  intros r [<- | [<- | []]]; split; reflexivity.
Defined.

(** X21.  A row without the artist key, or with an artist that is blank,
    gives an entry under the sentinel that is searched by its title alone:
    the title and the search string are [clean_title] of the track
    name. *)
Theorem csv_row_without_artist (r : row) (track_name : str) :
  get r "Track Name" (PyStr "") = PyStr track_name ->
  strip track_name <> [] ->
  r (of_literal "Artist Name(s)") = None
  \/ (exists a, r (of_literal "Artist Name(s)") = Some (PyStr a)
                /\ blank a = true) ->
  csv_row r
  = Ok (Some {| artist := "Unknown Artist";
                title := clean_title track_name;
                search := clean_title track_name |}).
Proof.
  intros Ht Hn Ha. unfold csv_row. rewrite Ht. cbn [cell_strip bind].
  apply truthy_true in Hn. rewrite Hn. cbn [negb].
  assert (A : cell_strip (get r "Artist Name(s)" (PyStr "")) = Ok []).
  { unfold get. destruct Ha as [-> | (a & -> & Hb)]; [reflexivity|].
    cbn [cell_strip]. unfold strip. apply lstrip_blank in Hb.
    now rewrite Hb. }
  rewrite A. cbn [bind truthy]. now rewrite clean_title_strip.
Qed.

Lemma csv_row_without_artist_witness :
  csv_row (fun key => if str_eqb key "Track Name"
                      then Some (PyStr " Hello (Live Version) ") else None)
  = Ok (Some {| artist := "Unknown Artist";
                title := clean_title " Hello (Live Version) ";
                search := clean_title " Hello (Live Version) " |}).
Proof.
  apply csv_row_without_artist; [reflexivity|discriminate|now left].
Defined.
